(** * lingo-cipher: a shallow embedding of [main.go] and of its earlier,
    slice-returning variant, with the properties of the specification.

    Conventions of the embedding.
    - A Go [string] is a sequence of bytes: Rocq's [string] (a list of 8-bit
      [ascii]).  [len] counts bytes; [for _, r := range s] decodes UTF-8 and
      yields runes; [string(rs)] for a rune slice encodes UTF-8.
    - [rune], [byte], [int] and [int64] are carried by [Z]; where the code
      can leave the range of its type (the sum in [BaseAdd], the accumulator
      of [strconv.ParseUint]) the wrap-around is written out.
    - [map[rune]rune] is a [gmap Z Z]; reading a missing key yields the zero
      rune, as in Go.  [WordList], a [map[string]struct{}], is a
      [gset string].
    - A call ends in one of three outcomes: a value, a returned [error], or
      a run-time panic.
    - The platform has 64 bits: [int] is [int64], a string header takes 16
      bytes, and one allocation is limited to [maxAlloc = 2^48] bytes.
      [make([]T, n)] panics as [runtime.makeslice] does, on a negative
      length and on a length of more than [maxAlloc] bytes; both checks
      come before the allocation.  Within that limit the allocator is taken
      to supply the memory: running out of it is a fatal error of the
      runtime that depends on the machine, not on the program.  The
      theorems on [FindValidSums] are therefore about the results it
      returns and about the panics it raises; that a call returns is said
      of the model only (lemma [FindValidSums_cases]) and of the examples
      that are computed.  [FromLetters] and [FromNumbers]
      reserve four bytes for each byte of their argument: strings are
      taken to be at most [maxAlloc / 4] bytes long, far beyond the
      numerals and words of the program. *)

From Stdlib Require Import ZArith Lia List String Ascii Bool.
From stdpp Require Import gmap strings list fin_maps sorting.

Local Open Scope Z_scope.

(* ===================================================================== *)
(** ** Outcomes: values, errors and panics                                *)
(* ===================================================================== *)

(** The errors a [strconv.NumError] wraps: the two sentinels and the
    complaint about the base. *)
Inductive strconv_err : Type :=
| ErrSyntax               (* strconv.ErrSyntax: "invalid syntax" *)
| ErrRange                (* strconv.ErrRange: "value out of range" *)
| ErrInvalidBase (b : Z). (* errors.New("invalid base " + itoa(b)) *)

(** The error values the program creates. *)
Inductive error : Type :=
| errorString (msg : string)                          (* errors.New(msg) *)
| NumError (func num : string) (err : strconv_err)    (* *strconv.NumError *)
| Errorf (prefix : string) (cause : error).           (* fmt.Errorf(prefix + "%v", cause) *)

(** The run-time panics the program can raise. *)
Inductive panic : Type :=
| IndexOutOfRange        (* runtime error: index out of range *)
| MakesliceLenOutOfRange (* runtime error: makeslice: len out of range *)
| IllegalFormatBase.     (* strconv: illegal AppendInt/FormatInt base *)

Inductive outcome (A : Type) : Type :=
| Ok (a : A)
| Err (e : error)
| Panic (p : panic).

Arguments Ok {A} a.
Arguments Err {A} e.
Arguments Panic {A} p.

#[global] Instance outcome_ret : MRet outcome := λ A a, Ok a.
#[global] Instance outcome_bind : MBind outcome := λ A B f m,
  match m with
  | Ok a => f a
  | Err e => Err e
  | Panic p => Panic p
  end.

(** The names the specification gives to the two construction errors. *)
Definition KeyTooLong : error := errorString "key longer than 36 characters".
Definition DuplicateKeyLetter : error := errorString "key contains repeat letters".

(* ===================================================================== *)
(** ** Strings, bytes and runes                                           *)
(* ===================================================================== *)

(** The code of a character literal such as ['0'] or ['a']. *)
Definition chr (a : ascii) : Z := Z.of_N (N_of_ascii a).

(** [[]byte(s)]. *)
Definition bytes_of_string (s : string) : list Z := chr <$> list_ascii_of_string s.

(** [string(bs)] for a byte slice; [byte] values are below 256. *)
Definition string_of_bytes (bs : list Z) : string :=
  string_of_list_ascii ((λ b, ascii_of_N (Z.to_N b)) <$> bs).

(** [len(s)]: the number of bytes. *)
Definition len (s : string) : Z := Z.of_nat (String.length s).

(** [for i := range n]: the integers [0 .. n-1], none when [n <= 0]. *)
Definition range (n : Z) : list Z := seqZ 0 n.

(** [s[i]] for a slice; out of range is a run-time panic. *)
Definition index {A : Type} (s : list A) (i : Z) : outcome A :=
  if (0 <=? i) && (i <? Z.of_nat (length s)) then
    match s !! Z.to_nat i with
    | Some x => Ok x
    | None => Panic IndexOutOfRange
    end
  else Panic IndexOutOfRange.

(** [s[i] = x] for a slice; out of range is a run-time panic. *)
Definition assign {A : Type} (s : list A) (i : Z) (x : A) : outcome (list A) :=
  if (0 <=? i) && (i <? Z.of_nat (length s)) then Ok (<[Z.to_nat i := x]> s)
  else Panic IndexOutOfRange.

(** [runtime.maxAlloc], the limit of one allocation in bytes, where the
    heap has 48 address bits (linux/amd64 and the other 64-bit ports). *)
Definition maxAlloc : Z := 2 ^ 48.

(** [make([]T, n)], that is [runtime.makeslice]: [n] zero values of a type
    whose values take [size] bytes.  A negative [n], and an [n] for which
    [size * n] exceeds [maxAlloc] (or overflows), is a run-time panic. *)
Definition make {A : Type} (size : Z) (zero : A) (n : Z) : outcome (list A) :=
  if (n <? 0) || (maxAlloc <? size * n) then Panic MakesliceLenOutOfRange
  else Ok (replicate (Z.to_nat n) zero).

(** *** UTF-8, as package [unicode/utf8] and the Go runtime implement it *)

Definition RuneError : Z := 65533.   (* U+FFFD *)
Definition MaxRune : Z := 1114111.   (* U+10FFFF *)

(** The continuation-byte range [locb .. hicb]. *)
Definition locb : Z := 128.
Definition hicb : Z := 191.

(** For a leading byte: the size of the sequence and the range accepted
    for its second byte ([utf8.first] with [utf8.acceptRanges]); [None] for
    a byte that cannot start a multi-byte sequence. *)
Definition first (p0 : Z) : option (Z * (Z * Z)) :=
  if (194 <=? p0) && (p0 <=? 223) then Some (2, (locb, hicb))
  else if p0 =? 224 then Some (3, (160, hicb))
  else if (225 <=? p0) && (p0 <=? 236) then Some (3, (locb, hicb))
  else if p0 =? 237 then Some (3, (locb, 159))
  else if (238 <=? p0) && (p0 <=? 239) then Some (3, (locb, hicb))
  else if p0 =? 240 then Some (4, (144, hicb))
  else if (241 <=? p0) && (p0 <=? 243) then Some (4, (locb, hicb))
  else if p0 =? 244 then Some (4, (locb, 143))
  else None.

(** [utf8.DecodeRune]: the first rune of [p] and its width in bytes. *)
Definition DecodeRune (p : list Z) : Z * nat :=
  match p with
  | [] => (RuneError, 0%nat)
  | p0 :: p' =>
    if p0 <? 128 then (p0, 1%nat) else
    match first p0 with
    | None => (RuneError, 1%nat)
    | Some (sz, (lo, hi)) =>
      if Z.of_nat (length p) <? sz then (RuneError, 1%nat) else
      match p' with
      | [] => (RuneError, 1%nat)
      | b1 :: p'' =>
        if (b1 <? lo) || (hi <? b1) then (RuneError, 1%nat) else
        if sz <=? 2 then
          (Z.lor (Z.shiftl (Z.land p0 31) 6) (Z.land b1 63), 2%nat)
        else
        match p'' with
        | [] => (RuneError, 1%nat)
        | b2 :: p''' =>
          if (b2 <? locb) || (hicb <? b2) then (RuneError, 1%nat) else
          if sz <=? 3 then
            (Z.lor (Z.lor (Z.shiftl (Z.land p0 15) 12) (Z.shiftl (Z.land b1 63) 6))
                   (Z.land b2 63), 3%nat)
          else
          match p''' with
          | [] => (RuneError, 1%nat)
          | b3 :: _ =>
            if (b3 <? locb) || (hicb <? b3) then (RuneError, 1%nat) else
            (Z.lor (Z.lor (Z.lor (Z.shiftl (Z.land p0 7) 18) (Z.shiftl (Z.land b1 63) 12))
                          (Z.shiftl (Z.land b2 63) 6))
                   (Z.land b3 63), 4%nat)
          end
        end
      end
    end
  end.

(** The runes [for _, r := range s] yields: at each position not yet
    consumed, the rune [DecodeRune] finds there; [skip] counts the bytes of
    the current rune still to be stepped over. *)
Fixpoint range_bytes (skip : nat) (p : list Z) : list Z :=
  match p with
  | [] => []
  | _ :: p' =>
    match skip with
    | S k => range_bytes k p'
    | O => let '(r, w) := DecodeRune p in r :: range_bytes (Nat.pred w) p'
    end
  end.

Definition range_string (s : string) : list Z := range_bytes 0 (bytes_of_string s).

(** [utf8.EncodeRune] (the runtime's [encoderune]): a rune outside the
    Unicode range, or a surrogate, is encoded as U+FFFD. *)
Definition encoderune (r : Z) : list Z :=
  if (0 <=? r) && (r <=? 127) then [r]
  else if (0 <=? r) && (r <=? 2047) then
    [Z.lor 192 (Z.shiftr r 6); Z.lor 128 (Z.land r 63)]
  else
    let r := if (r <? 0) || (MaxRune <? r) || ((55296 <=? r) && (r <=? 57343))
             then RuneError else r in
    if r <=? 65535 then
      [Z.lor 224 (Z.shiftr r 12); Z.lor 128 (Z.land (Z.shiftr r 6) 63);
       Z.lor 128 (Z.land r 63)]
    else
      [Z.lor 240 (Z.shiftr r 18); Z.lor 128 (Z.land (Z.shiftr r 12) 63);
       Z.lor 128 (Z.land (Z.shiftr r 6) 63); Z.lor 128 (Z.land r 63)].

(** [string(rs)] for a rune slice. *)
Definition string_of_runes (rs : list Z) : string :=
  string_of_bytes (rs ≫= encoderune).

(* ===================================================================== *)
(** ** Package [strconv]                                                  *)
(* ===================================================================== *)

Definition uint64 (x : Z) : Z := x mod 2 ^ 64.
Definition int64 (x : Z) : Z := (x + 2 ^ 63) mod 2 ^ 64 - 2 ^ 63.
Definition int32 (x : Z) : Z := (x + 2 ^ 31) mod 2 ^ 32 - 2 ^ 31.
Definition maxUint64 : Z := 2 ^ 64 - 1.

(** [strconv.digits]. *)
Definition digits : string := "0123456789abcdefghijklmnopqrstuvwxyz".

(** [digits[k]]. *)
Definition digit (k : Z) : Z := nth (Z.to_nat k) (bytes_of_string digits) 0.

(** The general loop of [strconv.formatBits]: the digits of [u] are written
    from the end of the 65-byte buffer [a], [i] being the index of the last
    byte written; the outcome is the new [i] and the bytes [a[i:]]. *)
Fixpoint formatBits_loop (i : nat) (u b : Z) (a : list Z) : outcome (nat * list Z) :=
  match i with
  | O => Panic IndexOutOfRange
  | S i' =>
    if b <=? u then
      let q := u / b in
      formatBits_loop i' q b (digit (u - q * b) :: a)
    else Ok (i', digit u :: a)
  end.

(** [strconv.FormatInt(i, base)].  The library's shortcuts (a table for
    small values in base 10, two decimal digits at a time, shifts for powers
    of two) compute the same digits as its general loop. *)
Definition FormatInt (i : Z) (base : Z) : outcome string :=
  if (base <? 2) || (Z.of_nat (String.length digits) <? base) then Panic IllegalFormatBase
  else
    let neg := i <? 0 in
    let u := uint64 i in
    let u := if neg then uint64 (- u) else u in
    '(i', a) ← formatBits_loop 65 u base [];
    if neg then
      match i' with
      | O => Panic IndexOutOfRange
      | S _ => Ok (string_of_bytes (chr "-" :: a))
      end
    else Ok (string_of_bytes a).

(** [strconv.Itoa]. *)
Definition Itoa (i : Z) : outcome string := FormatInt (int64 i) 10.

(** [strconv.lower]: [c | ('x' - 'X')]. *)
Definition lower (c : Z) : Z := Z.lor c 32.

(** [strconv.underscoreOK], on the bytes of the numeral: underscores may
    only separate digits, or a base prefix from a digit.  [saw] is the last
    character class seen. *)
Inductive saw_class : Type := SawStart | SawDigit | SawUnderscore | SawOther.

Fixpoint underscoreOK_loop (hex : bool) (saw : saw_class) (s : list Z) : bool :=
  match s with
  | [] => match saw with SawUnderscore => false | _ => true end
  | c :: s' =>
    if ((chr "0" <=? c) && (c <=? chr "9"))
       || (hex && (chr "a" <=? lower c) && (lower c <=? chr "f"))
    then underscoreOK_loop hex SawDigit s'
    else if c =? chr "_" then
      match saw with
      | SawDigit => underscoreOK_loop hex SawUnderscore s'
      | _ => false
      end
    else
      match saw with
      | SawUnderscore => false
      | _ => underscoreOK_loop hex SawOther s'
      end
  end.

Definition underscoreOK (s : list Z) : bool :=
  let s := match s with
           | c :: s' => if (c =? chr "-") || (c =? chr "+") then s' else s
           | [] => s
           end in
  match s with
  | c0 :: c1 :: s' =>
    if (c0 =? chr "0")
       && ((lower c1 =? chr "b") || (lower c1 =? chr "o") || (lower c1 =? chr "x"))
    then underscoreOK_loop (lower c1 =? chr "x") SawDigit s'
    else underscoreOK_loop false SawStart s
  | _ => underscoreOK_loop false SawStart s
  end.

(** The value of the digit [c], the [switch] in the loop of
    [strconv.ParseUint]; [None] for a byte that is no digit. *)
Definition digit_value (c : Z) : option Z :=
  if (chr "0" <=? c) && (c <=? chr "9") then Some (c - chr "0")
  else if (chr "a" <=? lower c) && (lower c <=? chr "z") then Some (lower c - chr "a" + 10)
  else None.

(** The digit loop of [strconv.ParseUint]: [n] is the [uint64] accumulator;
    the outcome is the value and whether an underscore was skipped. *)
Fixpoint ParseUint_loop (base cutoff maxVal : Z) (base0 : bool)
    (s : list Z) (n : Z) (underscores : bool) : strconv_err + Z * bool :=
  match s with
  | [] => inr (n, underscores)
  | c :: s' =>
    if (c =? chr "_") && base0 then
      ParseUint_loop base cutoff maxVal base0 s' n true
    else
      match digit_value c with
      | None => inl ErrSyntax
      | Some d =>
        if base mod 256 <=? d then inl ErrSyntax
        else if cutoff <=? n then inl ErrRange       (* n*base overflows *)
        else
          let n := uint64 (n * base) in
          let n1 := uint64 (n + d) in
          if (n1 <? n) || (maxVal <? n1) then inl ErrRange   (* n+d overflows *)
          else ParseUint_loop base cutoff maxVal base0 s' n1 underscores
      end
  end.

(** [strconv.ParseUint(s, base, 64)] on the bytes of [s]: the value, or the
    error a [NumError] will wrap. *)
Definition ParseUint (s : list Z) (base : Z) : strconv_err + Z :=
  match s with
  | [] => inl ErrSyntax
  | c0 :: _ =>
    let s0 := s in
    let prefixed :=
      if (2 <=? base) && (base <=? 36) then inr (base, s)
      else if base =? 0 then
        if c0 =? chr "0" then
          match s with
          | _ :: c1 :: ((_ :: _) as s2) =>
            if lower c1 =? chr "b" then inr (2, s2)
            else if lower c1 =? chr "o" then inr (8, s2)
            else if lower c1 =? chr "x" then inr (16, s2)
            else inr (8, tail s)
          | _ => inr (8, tail s)
          end
        else inr (10, s)
      else inl (ErrInvalidBase base) in
    match prefixed with
    | inl e => inl e
    | inr (b, s) =>
      let cutoff := maxUint64 / b + 1 in
      match ParseUint_loop b cutoff maxUint64 (base =? 0) s 0 false with
      | inl e => inl e
      | inr (n, underscores) =>
        if underscores && negb (underscoreOK s0) then inl ErrSyntax else inr n
      end
    end
  end.

(** [strconv.ParseInt(s, base, 64)]. *)
Definition ParseInt (s0 : string) (base : Z) : outcome Z :=
  let fnParseInt := "ParseInt"%string in
  match bytes_of_string s0 with
  | [] => Err (NumError fnParseInt s0 ErrSyntax)
  | c0 :: s' =>
    let '(neg, s) := if c0 =? chr "+" then (false, s')
                     else if c0 =? chr "-" then (true, s')
                     else (false, c0 :: s') in
    match ParseUint s base with
    | inl ErrRange => Err (NumError fnParseInt s0 ErrRange)
    | inl e => Err (NumError fnParseInt s0 e)
    | inr un =>
      let cutoff := 2 ^ 63 in
      if negb neg && (cutoff <=? un) then Err (NumError fnParseInt s0 ErrRange)
      else if neg && (cutoff <? un) then Err (NumError fnParseInt s0 ErrRange)
      else
        let n := int64 un in
        Ok (if neg then int64 (- n) else n)
    end
  end.

(* ===================================================================== *)
(** ** The program                                                        *)
(* ===================================================================== *)

(** A loop whose body may panic or fail, without [break]. *)
Fixpoint for_each {A St : Type} (xs : list A) (body : St → A → outcome St) (st : St)
    : outcome St :=
  match xs with
  | [] => Ok st
  | x :: xs' => st' ← body st x; for_each xs' body st'
  end.

Record Cipher : Type := {
  letterToNumber : gmap Z Z;
  numberToLetter : gmap Z Z;
  base : Z
}.

(** [MakeNumbers].  [l] is an [int] and [rune(x)] converts to [int32]:
    [l - 1] wraps around for the least [int], and the third loop then runs
    for [2^63 - 10] rounds, as long as there is memory for its slice.  For
    every other [l] below 36 the conversions change nothing. *)
Definition MakeNumbers (l : Z) (leading0 : bool) : outcome (list Z) :=
  if 36 <=? l then Err (errorString "cipher key too long")
  else
    let numbers := [] in
    let lengthWithout0 := int64 (l - 1) in
    let numbers :=
      if lengthWithout0 <=? 8 then
        foldl (λ numbers i, numbers ++ [int32 (chr "0" + i + 1)]) numbers
              (range lengthWithout0)
      else
        let numbers :=
          foldl (λ numbers i, numbers ++ [int32 (chr "0" + i + 1)]) numbers (range 9) in
        let lettersLength := lengthWithout0 - 9 in
        foldl (λ numbers i, numbers ++ [int32 (chr "a" + i)]) numbers (range lettersLength) in
    if leading0 then Ok ([chr "0"] ++ numbers)
    else Ok (numbers ++ [chr "0"]).

(** The first loop of [CipherFromKey]: the runes of the key are collected
    until one is already in [letters]. *)
Fixpoint key_letters (runes : list Z) (letters : list Z) : outcome (list Z) :=
  match runes with
  | [] => Ok letters
  | l :: runes' =>
    if bool_decide (l ∈ letters) then Err DuplicateKeyLetter
    else key_letters runes' (letters ++ [l])
  end.

(** The body of the last loop of [CipherFromKey]: one entry is added to
    each of the two maps. *)
Definition fill_maps (letters numbers : list Z) (maps : gmap Z Z * gmap Z Z) (i : Z)
    : outcome (gmap Z Z * gmap Z Z) :=
  let '(letterToNumber, numberToLetter) := maps in
  letter ← index letters i;
  number ← index numbers i;
  Ok (<[letter := number]> letterToNumber, <[number := letter]> numberToLetter).

Definition CipherFromKey (k : string) (leading0 : bool) : outcome Cipher :=
  let klength := len k in
  if 36 <=? klength then Err KeyTooLong
  else
    letters ← key_letters (range_string k) [];
    numbers ← MakeNumbers klength leading0;
    maps ← for_each (range klength) (fill_maps letters numbers) (∅, ∅);
    Ok {| letterToNumber := maps.1; numberToLetter := maps.2; base := klength |}.

(** The rune slice [FromLetters] builds before converting it to a string. *)
Definition FromLetters_runes (c : Cipher) (letters : string) : list Z :=
  foldl (λ numbers l, numbers ++ [default 0 (letterToNumber c !! l)]) []
        (range_string letters).

Definition FromLetters (c : Cipher) (letters : string) : string :=
  string_of_runes (FromLetters_runes c letters).

(** The rune slice [FromNumbers] builds before converting it to a string. *)
Definition FromNumbers_runes (c : Cipher) (numbers : string) : list Z :=
  foldl (λ letters n, letters ++ [default 0 (numberToLetter c !! n)]) []
        (range_string numbers).

Definition FromNumbers (c : Cipher) (numbers : string) : string :=
  string_of_runes (FromNumbers_runes c numbers).

Definition BaseAdd (n1 n2 : string) (b : Z) : outcome string :=
  match ParseInt n1 b with
  | Err err => Err (Errorf "invalid base-11 string n1: " err)
  | Panic p => Panic p
  | Ok val1 =>
    match ParseInt n2 b with
    | Err err => Err (Errorf "invalid base-11 string n2: " err)
    | Panic p => Panic p
    | Ok val2 =>
      let sum := int64 (val1 + val2) in
      FormatInt sum b
    end
  end.

Definition BaseTimes (n1 n2 : string) (b : Z) : outcome string :=
  match ParseInt n1 b with
  | Err err => Err (Errorf "invalid base-11 string n1: " err)
  | Panic p => Panic p
  | Ok val1 =>
    match ParseInt n2 b with
    | Err err => Err (Errorf "invalid base-11 string n2: " err)
    | Panic p => Panic p
    | Ok val2 =>
      let product := int64 (val1 * val2) in
      FormatInt product b
    end
  end.

Abbreviation WordList := (gset string).

Definition IsValidWord (w : string) (wl : WordList) : bool := bool_decide (w ∈ wl).

(** *** Package [strings], as [MakeWordList] uses it *)

(** [strings.SplitSeq(s, sep)] for a separator of the one byte [sep]: the
    fragments between the separators, in order, [cur] being the fragment
    under way; the last fragment is yielded even when it is empty. *)
Fixpoint split_on (sep : Z) (cur : list Z) (s : list Z) : list (list Z) :=
  match s with
  | [] => [cur]
  | c :: s' =>
    if c =? sep then cur :: split_on sep [] s'
    else split_on sep (cur ++ [c]) s'
  end.

(** [utf8.RuneSelf]: the bytes below it are the one-byte characters. *)
Definition RuneSelf : Z := 128.

(** [strings.asciiSpace]: tab, line feed, vertical tab, form feed,
    carriage return and space. *)
Definition asciiSpace (c : Z) : bool :=
  (c =? 9) || (c =? 10) || (c =? 11) || (c =? 12) || (c =? 13) || (c =? 32).

(** The forward loop of [strings.TrimSpace]: [inr] the string after its
    leading ASCII spaces; [inl] what remains when a byte that is not ASCII
    is met first, to be handed to the Unicode-aware path. *)
Fixpoint TrimSpace_start (s : list Z) : list Z + list Z :=
  match s with
  | [] => inr []
  | c :: s' =>
    if RuneSelf <=? c then inl s
    else if asciiSpace c then TrimSpace_start s'
    else inr s
  end.

(** The backward loop of [strings.TrimSpace], on the reversed string. *)
Fixpoint TrimSpace_stop (rev_s : list Z) : list Z + list Z :=
  match rev_s with
  | [] => inr []
  | c :: rev_s' =>
    if RuneSelf <=? c then inl (reverse rev_s)
    else if asciiSpace c then TrimSpace_stop rev_s'
    else inr (reverse rev_s)
  end.

Section WordLists.
(** The file system, and the paths of package [strings] that consult the
    Unicode tables: [strings.Map(unicode.ToLower, s)],
    [strings.TrimFunc(s, unicode.IsSpace)] and
    [strings.TrimRightFunc(s, unicode.IsSpace)]. *)
Context (ReadFile : string → string + error).
Context (Map_ToLower TrimFunc_IsSpace TrimRightFunc_IsSpace : string → string).

(** [strings.ToLower]: a string of ASCII bytes has its letters ['A'] to
    ['Z'] lowered byte by byte; any other string takes the Unicode path. *)
Definition ToLower (s : string) : string :=
  let bs := bytes_of_string s in
  if forallb (λ c, c <? RuneSelf) bs then
    string_of_bytes ((λ c, if (chr "A" <=? c) && (c <=? chr "Z")
                           then c + (chr "a" - chr "A") else c) <$> bs)
  else Map_ToLower s.

(** [strings.TrimSpace]. *)
Definition TrimSpace (s : string) : string :=
  match TrimSpace_start (bytes_of_string s) with
  | inl rest => TrimFunc_IsSpace (string_of_bytes rest)
  | inr rest =>
    match TrimSpace_stop (reverse rest) with
    | inl kept => TrimRightFunc_IsSpace (string_of_bytes kept)
    | inr kept => string_of_bytes kept
    end
  end.

(** The loop of [MakeWordList] over the lines of the file. *)
Definition word_list_of (data : string) : WordList :=
  foldl (λ (wordList : WordList) word,
           let word := TrimSpace (ToLower (string_of_bytes word)) in
           if bool_decide (word ≠ ""%string) then {[word]} ∪ wordList else wordList)
        ∅ (split_on (chr "010") [] (bytes_of_string data)).

(** [MakeWordList]: the word list and the error, [None] standing for
    [nil]. *)
Definition MakeWordList (fileName : string) : WordList * option error :=
  let wordList : WordList := ∅ in
  match ReadFile fileName with
  | inr err => (wordList, Some err)
  | inl data => (word_list_of data, None)
  end.
End WordLists.

Record Word : Type := { numbers : string; letters : string }.

(** The zero value of [Word]. *)
Definition Word_zero : Word := {| numbers := ""; letters := "" |}.

(** [unsafe.Sizeof] of a [Word], two string headers, and of a [bool]. *)
Definition sizeof_Word : Z := 32.
Definition sizeof_bool : Z := 1.

(** [Triplet] is [[3]Word]. *)
Definition Triplet : Type := Word * Word * Word.

Definition fromInt (c : Cipher) (val : Z) : outcome (string * string) :=
  if base c =? 10 then
    numbers ← Itoa val;
    let letters := FromNumbers c numbers in
    Ok (numbers, letters)
  else
    numbers ← FormatInt (int64 val) (base c);
    let letters := FromNumbers c numbers in
    Ok (numbers, letters).

(** The three slices the first loop of [FindValidSums] fills. *)
Record scan : Type := {
  validInfo : list Word;
  isValid : list bool;
  validNumbers : list Z
}.

(** The first loop of [FindValidSums], the same in both variants. *)
Definition scan_body (c : Cipher) (wl : WordList) (st : scan) (k : Z) : outcome scan :=
  '(numbers, letters) ← fromInt c k;
  if IsValidWord letters wl then
    validInfo ← assign (validInfo st) k {| numbers := numbers; letters := letters |};
    isValid ← assign (isValid st) k true;
    Ok {| validInfo := validInfo; isValid := isValid;
          validNumbers := validNumbers st ++ [k] |}
  else Ok st.

Definition scan_all (c : Cipher) (maxSum : Z) (wl : WordList) : outcome scan :=
  validInfo ← make sizeof_Word Word_zero maxSum;
  isValid ← make sizeof_bool false maxSum;
  let validNumbers := [] in
  for_each (range maxSum) (scan_body c wl)
    {| validInfo := validInfo; isValid := isValid; validNumbers := validNumbers |}.

(** *** [src/main.go]: the triplets are handed to a callback.  The callback
    acts on a state of the caller's ([S]): the CSV writer, in [main]. *)
Module Callback.
Section Callback.
Context {S : Type}.
Variable action : Triplet → S → S.

Fixpoint inner (st : scan) (maxNumber i : Z) (iWord : Word) (js : list Z) (s : S)
    : outcome S :=
  match js with
  | [] => Ok s
  | j :: js' =>
    if j <? i then inner st maxNumber i iWord js' s            (* continue *)
    else if maxNumber <=? j then Ok s                          (* break *)
    else
      v ← index (isValid st) (i + j);
      if v : bool then
        jWord ← index (validInfo st) j;
        sWord ← index (validInfo st) (i + j);
        inner st maxNumber i iWord js' (action (iWord, jWord, sWord) s)
      else inner st maxNumber i iWord js' s
  end.

Fixpoint outer (st : scan) (maxNumber : Z) (ivals : list Z) (s : S) : outcome S :=
  match ivals with
  | [] => Ok s
  | i :: ivals' =>
    if maxNumber <=? i then Ok s                               (* break *)
    else
      iWord ← index (validInfo st) i;
      s' ← inner st maxNumber i iWord (validNumbers st) s;
      outer st maxNumber ivals' s'
  end.

Definition FindValidSums (c : Cipher) (maxSum : Z) (wl : WordList) (s : S) : outcome S :=
  let maxNumber := maxSum ÷ 2 in
  st ← scan_all c maxSum wl;
  outer st maxNumber (validNumbers st) s.
End Callback.
End Callback.

(** *** [src/unnamed/part_000]: the triplets are appended to a slice that
    is returned. *)
Module Slice.
Fixpoint inner (st : scan) (maxNumber i : Z) (iWord : Word) (js : list Z)
    (result : list Triplet) : outcome (list Triplet) :=
  match js with
  | [] => Ok result
  | j :: js' =>
    if j <? i then inner st maxNumber i iWord js' result       (* continue *)
    else if maxNumber <=? j then Ok result                     (* break *)
    else
      v ← index (isValid st) (i + j);
      if v : bool then
        jWord ← index (validInfo st) j;
        sWord ← index (validInfo st) (i + j);
        inner st maxNumber i iWord js' (result ++ [(iWord, jWord, sWord)])
      else inner st maxNumber i iWord js' result
  end.

Fixpoint outer (st : scan) (maxNumber : Z) (ivals : list Z) (result : list Triplet)
    : outcome (list Triplet) :=
  match ivals with
  | [] => Ok result
  | i :: ivals' =>
    if maxNumber <=? i then Ok result                          (* break *)
    else
      iWord ← index (validInfo st) i;
      result' ← inner st maxNumber i iWord (validNumbers st) result;
      outer st maxNumber ivals' result'
  end.

Definition FindValidSums (c : Cipher) (maxSum : Z) (wl : WordList)
    : outcome (list Triplet) :=
  let result := [] in
  let maxNumber := maxSum ÷ 2 in
  st ← scan_all c maxSum wl;
  outer st maxNumber (validNumbers st) result.
End Slice.

(** The cipher of the key "ab" without leading zero, the example of the
    specification: [a] stands for ['1'] and [b] for ['0']. *)
Definition cipher_ab : Cipher :=
  {| letterToNumber := {[97 := 49; 98 := 48]};
     numberToLetter := {[49 := 97; 48 := 98]};
     base := 2 |}.

(** The action that records what it is handed, in order. *)
Definition record_triplet (t : Triplet) (seen : list Triplet) : list Triplet :=
  seen ++ [t].

(* ===================================================================== *)
(** ** The vocabulary of the properties                                   *)
(* ===================================================================== *)

(** Handing the triplets [ts] to [action] one by one, from the state [s]. *)
Definition run_action {S : Type} (action : Triplet → S → S) (s : S) (ts : list Triplet) : S :=
  foldl (λ s t, action t s) s ts.

(** The value symbols in the order the specification gives them: ['0'],
    ['1'] .. ['9'], then ['a'] onward. *)
Definition value_symbol (i : Z) : Z :=
  if i <=? 9 then chr "0" + i else chr "a" + (i - 10).

(** The [l - 1] symbols that follow ['0']. *)
Definition value_symbols (l : Z) : list Z := value_symbol <$> seqZ 1 (l - 1).

(** The string that holds the single byte 0. *)
Definition NUL : string := String "000" "".

(** The value of the digits [ds], most significant first, after the
    digits already read, worth [n]. *)
Definition digits_value (b : Z) (n : Z) (ds : list Z) : Z := foldl (λ n d, n * b + d) n ds.

(** The digit values of the bytes [cs]; 0 stands for a byte that is no
    digit. *)
Definition digit_values (cs : list Z) : list Z := (λ c, default 0 (digit_value c)) <$> cs.

(** A numeral as the specification has it: an optional sign, then one
    digit or more.  [numeral_parts] gives the sign and the digit bytes. *)
Definition numeral_parts (s : string) : bool * list Z :=
  match bytes_of_string s with
  | [] => (false, [])
  | c0 :: s' =>
    if c0 =? chr "+" then (false, s')
    else if c0 =? chr "-" then (true, s')
    else (false, c0 :: s')
  end.

(** [s] is a valid numeral in base [b]: every digit is below [b]. *)
Definition is_numeral (b : Z) (s : string) : bool :=
  let cs := (numeral_parts s).2 in
  bool_decide (cs ≠ [])
  && forallb (λ c, match digit_value c with Some d => d <? b | None => false end) cs.

(** The exact integer the numeral [s] denotes in base [b]. *)
Definition numeral_value (b : Z) (s : string) : Z :=
  let '(neg, cs) := numeral_parts s in
  let m := digits_value b 0 (digit_values cs) in
  if neg then - m else m.

(** The value symbol that stands at position [i] of the sequence
    [MakeNumbers] returns for the length [l]: ['0'] comes first with
    [leading0] and last without. *)
Definition assigned_symbol (l : Z) (leading0 : bool) (i : Z) : Z :=
  if leading0 then value_symbol i
  else if i =? l - 1 then chr "0" else value_symbol (i + 1).

(** [s] is a numeral of base [b] whose value is an [int64]. *)
Definition int64_numeral (b : Z) (s : string) : Prop :=
  is_numeral b s = true ∧ - 2 ^ 63 ≤ numeral_value b s < 2 ^ 63.

(** The [Word] of the integer [v]: its numeral in the cipher's base and
    the letters it decodes to. *)
Definition word (c : Cipher) (v : Z) : Word :=
  match fromInt c v with
  | Ok (numbers, letters) => {| numbers := numbers; letters := letters |}
  | _ => Word_zero
  end.

(** [v] is a valid integer: its letters are a word of the list. *)
Definition valid (c : Cipher) (wl : WordList) (v : Z) : bool :=
  IsValidWord (letters (word c v)) wl.

(** The triplets of the first addend [i], the second addend taken from
    [js] in order. *)
Definition sums_of (c : Cipher) (wl : WordList) (maxNumber i : Z) (js : list Z)
    : list Triplet :=
  (λ j, (word c i, word c j, word c (i + j)))
    <$> filter (λ j, i ≤ j ∧ j < maxNumber ∧ valid c wl (i + j) = true) js.

(** All the triplets, both addends taken from the valid integers below
    [maxSum] in ascending order. *)
Definition valid_sums (c : Cipher) (wl : WordList) (maxSum : Z) : list Triplet :=
  let vs := filter (λ k, valid c wl k = true) (range maxSum) in
  filter (λ i, i < maxSum ÷ 2) vs ≫= λ i, sums_of c wl (maxSum ÷ 2) i vs.

(** The normal form of a line of the dictionary: lowered, then trimmed. *)
Definition normal_form (Map_ToLower TrimFunc_IsSpace TrimRightFunc_IsSpace : string → string)
    (line : list Z) : string :=
  TrimSpace TrimFunc_IsSpace TrimRightFunc_IsSpace
    (ToLower Map_ToLower (string_of_bytes line)).

(** The lines of a file: its fragments between line feeds. *)
Definition lines_of (data : string) : list (list Z) :=
  split_on (chr "010") [] (bytes_of_string data).

(** The integer a [Word] stands for: its numeral read in the cipher's
    base (0 when the numeral does not parse). *)
Definition Word_value (c : Cipher) (w : Word) : Z :=
  match ParseInt (numbers w) (base c) with
  | Ok v => v
  | _ => 0
  end.

(** The two addends of a triplet, as integers. *)
Definition addends (c : Cipher) (t : Triplet) : Z * Z :=
  (Word_value c t.1.1, Word_value c t.1.2).

(** The order of the output: by the first addend, then by the second. *)
Definition lex_lt (p q : Z * Z) : Prop := p.1 < q.1 ∨ (p.1 = q.1 ∧ p.2 < q.2).

(** What the first loop has established once the integers below [m] have
    been visited, the slices having [N] elements. *)
Definition scanned (c : Cipher) (wl : WordList) (N m : Z) (st : scan) : Prop :=
  validNumbers st = filter (λ k, valid c wl k = true) (seqZ 0 m)
  ∧ length (validInfo st) = Z.to_nat N
  ∧ length (isValid st) = Z.to_nat N
  ∧ (∀ k, 0 ≤ k < N →
       isValid st !! Z.to_nat k = Some (bool_decide (k < m) && valid c wl k))
  ∧ (∀ k, 0 ≤ k < m → valid c wl k = true →
       validInfo st !! Z.to_nat k = Some (word c k)).

(* ===================================================================== *)
(** ** Tactics and first facts                                            *)
(* ===================================================================== *)

(** Spells out the bounds of the 64-bit types, for [lia]. *)
Ltac spell_int64 :=
  unfold int64, uint64, maxUint64 in *;
  change (2 ^ 64) with 18446744073709551616 in *;
  change (2 ^ 63) with 9223372036854775808 in *.

(** Decides a comparison that guards a branch, closing the impossible
    side with [lia]. *)
Ltac guard_leb a b := destruct (Z.leb_spec a b); try lia.
Ltac guard_ltb a b := destruct (Z.ltb_spec a b); try lia.

Lemma bind_Ok {A B : Type} (m : outcome A) (f : A → outcome B) (b : B) :
  m ≫= f = Ok b ↔ ∃ a, m = Ok a ∧ f a = Ok b.
Proof.
  destruct m as [a|e|p]; simpl; split.
  - eauto.
  - by intros (a' & [= ->] & ?).
  - done.
  - by intros (? & ? & ?).
  - done.
  - by intros (? & ? & ?).
Qed.

Lemma for_each_app {A St : Type} (xs ys : list A) (body : St → A → outcome St) (st : St) :
  for_each (xs ++ ys) body st = for_each xs body st ≫= for_each ys body.
Proof.
  revert st. induction xs as [|x xs IH]; intros st; simpl; [done|].
  destruct (body st x) as [st'|e|p]; simpl; [apply IH|done|done].
Qed.

Lemma foldl_snoc_fmap {A B : Type} (f : A → B) (xs : list A) (acc : list B) :
  foldl (λ acc x, acc ++ [f x]) acc xs = acc ++ (f <$> xs).
Proof.
  revert acc. induction xs as [|x xs IH]; intros acc; simpl.
  - by rewrite app_nil_r.
  - by rewrite IH, <- app_assoc.
Qed.

Lemma index_Ok {A : Type} (s : list A) (i : Z) (x : A) :
  index s i = Ok x ↔ 0 ≤ i ∧ s !! Z.to_nat i = Some x.
Proof.
  unfold index. split.
  - destruct (0 <=? i) eqn:H0; simpl; [|done].
    destruct (i <? Z.of_nat (length s)); [|done].
    destruct (s !! Z.to_nat i); [|done]. intros [= ->]. split; [lia|done].
  - intros [H0 Hx]. pose proof (lookup_lt_Some _ _ _ Hx) as Hlt.
    destruct (Z.leb_spec 0 i); [|lia]. destruct (Z.ltb_spec i (Z.of_nat (length s))); [|lia].
    simpl. by rewrite Hx.
Qed.

Lemma index_not_Err {A : Type} (s : list A) (i : Z) (e : error) : index s i ≠ Err e.
Proof.
  unfold index. destruct (_ && _); [|done]. by destruct (s !! Z.to_nat i).
Qed.

(* ===================================================================== *)
(** ** The two variants of [FindValidSums] agree                          *)
(* ===================================================================== *)

Section Agreement.
Context {S : Type}.
Variable action : Triplet → S → S.

Lemma inner_agree st maxNumber i iWord js (s : S) (seen : list Triplet) :
  Callback.inner action st maxNumber i iWord js (run_action action s seen)
  = Slice.inner st maxNumber i iWord js seen
      ≫= λ ts, Ok (run_action action s ts).
Proof.
  revert seen. induction js as [|j js IH]; intros seen; simpl; [done|].
  destruct (j <? i); [apply IH|].
  destruct (maxNumber <=? j); [done|].
  destruct (index (isValid st) (i + j)) as [[|]|e|p]; simpl; try done.
  destruct (index (validInfo st) j) as [jWord|e|p]; simpl; try done.
  destruct (index (validInfo st) (i + j)) as [sWord|e|p]; simpl; try done.
  rewrite <- IH. unfold run_action. by rewrite foldl_app.
Qed.

Lemma outer_agree st maxNumber ivals (s : S) (seen : list Triplet) :
  Callback.outer action st maxNumber ivals (run_action action s seen)
  = Slice.outer st maxNumber ivals seen
      ≫= λ ts, Ok (run_action action s ts).
Proof.
  revert seen. induction ivals as [|i ivals IH]; intros seen; simpl; [done|].
  destruct (maxNumber <=? i); [done|].
  destruct (index (validInfo st) i) as [iWord|e|p]; simpl; try done.
  rewrite inner_agree.
  destruct (Slice.inner st maxNumber i iWord (validNumbers st) seen) as [seen'|e|p];
    simpl; done.
Qed.

Lemma FindValidSums_agree c maxSum wl (s : S) :
  Callback.FindValidSums action c maxSum wl s
  = Slice.FindValidSums c maxSum wl ≫= λ ts, Ok (run_action action s ts).
Proof.
  unfold Callback.FindValidSums, Slice.FindValidSums.
  destruct (scan_all c maxSum wl) as [st|e|p]; simpl; try done.
  apply (outer_agree st _ _ s []).
Qed.
End Agreement.

Lemma run_action_record (seen ts : list Triplet) :
  run_action record_triplet seen ts = seen ++ ts.
Proof.
  revert seen. induction ts as [|t ts IH]; intros seen; simpl.
  - by rewrite app_nil_r.
  - rewrite IH. unfold record_triplet. by rewrite <- app_assoc.
Qed.

Lemma Callback_record_is_Slice (c : Cipher) (maxSum : Z) (wl : WordList) :
  Callback.FindValidSums record_triplet c maxSum wl [] = Slice.FindValidSums c maxSum wl.
Proof.
  rewrite FindValidSums_agree.
  destruct (Slice.FindValidSums c maxSum wl) as [ts|e|p]; simpl; try done.
  by rewrite run_action_record.
Qed.

(** C10.  Whatever the cipher, the bound and the word list: the callback
    variant of [FindValidSums] (src/main.go) hands its action exactly the
    triplets the slice variant (src/unnamed/part_000) returns, one by one
    and in the same order; the two also panic on the same inputs.  First
    for an arbitrary action and state, then for the action that records
    what it is handed. *)
Theorem C10_callback_sequence_is_slice :
  (∀ (S : Type) (action : Triplet → S → S) c maxSum wl (s : S),
      Callback.FindValidSums action c maxSum wl s
      = Slice.FindValidSums c maxSum wl ≫= λ ts, Ok (run_action action s ts))
  ∧ (∀ c maxSum wl,
      Callback.FindValidSums record_triplet c maxSum wl [] = Slice.FindValidSums c maxSum wl).
Proof.
  split.
  - intros. apply FindValidSums_agree.
  - intros. apply Callback_record_is_Slice.
Qed.

(* ===================================================================== *)
(** ** [MakeNumbers]                                                      *)
(* ===================================================================== *)

Lemma fmap_seqZ_ext (f g : Z → Z) (m n : Z) :
  (∀ i, m ≤ i < m + n → f i = g i) → f <$> seqZ m n = g <$> seqZ m n.
Proof.
  intros H. apply Forall_fmap_ext, Forall_seqZ. auto.
Qed.

Lemma MakeNumbers_digits_only (l : Z) :
  l - 1 ≤ 8 → (λ i, chr "0" + i + 1) <$> range (l - 1) = value_symbols l.
Proof.
  intros Hl. unfold value_symbols, range.
  rewrite <- (fmap_add_seqZ 1 0), <- list_fmap_compose.
  apply fmap_seqZ_ext. intros i Hi. unfold compose, value_symbol.
  destruct (Z.leb_spec (1 + i) 9); lia.
Qed.

Lemma MakeNumbers_with_letters (l : Z) :
  8 < l - 1 →
  ((λ i, chr "0" + i + 1) <$> range 9) ++ ((λ i, chr "a" + i) <$> range (l - 1 - 9))
  = value_symbols l.
Proof.
  intros Hl. unfold value_symbols, range.
  replace (l - 1) with (9 + (l - 1 - 9)) at 2 by lia.
  rewrite seqZ_app, fmap_app by lia. f_equal.
  replace (1 + 9) with (10 + 0) by done.
  rewrite <- (fmap_add_seqZ 10 0), <- list_fmap_compose.
  apply fmap_seqZ_ext. intros i Hi. unfold compose, value_symbol.
  destruct (Z.leb_spec (10 + i) 9); lia.
Qed.

Lemma int64_no_wrap (v : Z) : - 2 ^ 63 ≤ v < 2 ^ 63 → int64 v = v.
Proof.
  intros Hv. unfold int64. rewrite Z.mod_small by lia. lia.
Qed.

Lemma int32_no_wrap (v : Z) : - 2 ^ 31 ≤ v < 2 ^ 31 → int32 v = v.
Proof.
  intros Hv. unfold int32. rewrite Z.mod_small by lia. lia.
Qed.

(** For every length but the least [int] nothing wraps around in
    [MakeNumbers]. *)
Lemma MakeNumbers_no_wrap (l : Z) (leading0 : bool) :
  - 2 ^ 63 < l < 36 →
  MakeNumbers l leading0
  = let numbers :=
      if l - 1 <=? 8 then (λ i, chr "0" + i + 1) <$> range (l - 1)
      else ((λ i, chr "0" + i + 1) <$> range 9)
           ++ ((λ i, chr "a" + i) <$> range (l - 1 - 9)) in
    if leading0 then Ok ([chr "0"] ++ numbers) else Ok (numbers ++ [chr "0"]).
Proof.
  intros Hl. unfold MakeNumbers.
  destruct (Z.leb_spec 36 l); [lia|].
  rewrite int64_no_wrap by lia.
  rewrite !foldl_snoc_fmap, !app_nil_l. cbv zeta. unfold range.
  assert (chr "0" = 48 ∧ chr "a" = 97) as [H0 Ha] by done.
  destruct (Z.leb_spec (l - 1) 8).
  - rewrite (fmap_seqZ_ext (λ i, int32 (chr "0" + i + 1)) (λ i, chr "0" + i + 1)); [done|].
    intros i Hi. apply int32_no_wrap. lia.
  - rewrite (fmap_seqZ_ext (λ i, int32 (chr "0" + i + 1)) (λ i, chr "0" + i + 1) 0 9).
    2:{ intros i Hi. apply int32_no_wrap. lia. }
    rewrite (fmap_seqZ_ext (λ i, int32 (chr "a" + i)) (λ i, chr "a" + i)); [done|].
    intros i Hi. apply int32_no_wrap. lia.
Qed.

Lemma MakeNumbers_Ok (l : Z) (leading0 : bool) :
  1 ≤ l < 36 →
  MakeNumbers l leading0
  = Ok (if leading0 then chr "0" :: value_symbols l else value_symbols l ++ [chr "0"]).
Proof.
  intros Hl. rewrite MakeNumbers_no_wrap by lia. cbv zeta.
  destruct (Z.leb_spec (l - 1) 8).
  - rewrite MakeNumbers_digits_only by done. by destruct leading0.
  - rewrite MakeNumbers_with_letters by done. by destruct leading0.
Qed.

Lemma length_value_symbols (l : Z) : 1 ≤ l → Z.of_nat (length (value_symbols l)) = l - 1.
Proof.
  intros Hl. unfold value_symbols. rewrite length_fmap, length_seqZ. lia.
Qed.

(** C7, as the code has it.  For every [l] with [1 <= l < 36] and either
    flag, [MakeNumbers] succeeds and returns exactly [l] value symbols: the
    [l - 1] symbols ['1'] .. ['9'], ['a'] onward in increasing order, with
    ['0'] first when [leading0] is set and last when it is not. *)
Theorem C7_MakeNumbers_layout (l : Z) (leading0 : bool) :
  1 ≤ l < 36 →
  ∃ numbers,
    MakeNumbers l leading0 = Ok numbers
    ∧ Z.of_nat (length numbers) = l
    ∧ numbers = (if leading0 then [chr "0"] ++ value_symbols l
                 else value_symbols l ++ [chr "0"]).
Proof.
  intros Hl. eexists. split; [by apply MakeNumbers_Ok|]. split; [|by destruct leading0].
  pose proof (length_value_symbols l) as Hlen.
  destruct leading0; [simpl|rewrite length_app; simpl]; lia.
Qed.

Lemma C7_MakeNumbers_layout_witness :
  ∃ numbers,
    MakeNumbers 12 false = Ok numbers
    ∧ Z.of_nat (length numbers) = 12
    ∧ numbers = value_symbols 12 ++ [chr "0"].
Proof. apply (C7_MakeNumbers_layout 12 false). lia. Defined.

(** C7 fails at [l = 0]: no symbol precedes the reserved ['0'], which is
    returned all the same, so the sequence has one element, not none. *)
Lemma C7_MakeNumbers_zero_length :
  MakeNumbers 0 false = Ok [chr "0"]
  ∧ MakeNumbers 0 true = Ok [chr "0"]
  ∧ ¬ (∃ numbers, MakeNumbers 0 false = Ok numbers ∧ Z.of_nat (length numbers) = 0).
Proof.
  split; [done|]. split; [done|].
  intros (numbers & Hn & Hlen). vm_compute in Hn. by injection Hn as <-.
Qed.

(* ===================================================================== *)
(** ** [CipherFromKey]: the errors                                        *)
(* ===================================================================== *)

Lemma key_letters_spec (runes letters : list Z) :
  NoDup letters →
  key_letters runes letters
  = if decide (NoDup (letters ++ runes)) then Ok (letters ++ runes)
    else Err DuplicateKeyLetter.
Proof.
  revert letters. induction runes as [|l runes IH]; intros letters Hnd; simpl.
  - rewrite app_nil_r. by destruct (decide (NoDup letters)).
  - case_bool_decide as Hin.
    + destruct (decide (NoDup (letters ++ l :: runes))) as [Hnd'|]; [|done].
      apply NoDup_app in Hnd' as (_ & Hdisj & _).
      exfalso. apply (Hdisj l Hin). by left.
    + rewrite IH.
      * by rewrite <- app_assoc.
      * apply NoDup_app. split; [done|]. split; [|apply NoDup_singleton].
        intros x Hx ->%list_elem_of_singleton. done.
Qed.

Lemma for_each_not_Err {A St : Type} (xs : list A) (body : St → A → outcome St) :
  (∀ st x e, body st x ≠ Err e) → ∀ st e, for_each xs body st ≠ Err e.
Proof.
  intros Hbody. induction xs as [|x xs IH]; intros st e; simpl; [done|].
  destruct (body st x) as [st'|e'|p] eqn:Hb; simpl; [apply IH| |done].
  by destruct (Hbody st x e').
Qed.

Lemma MakeNumbers_not_Err (l : Z) (leading0 : bool) (e : error) :
  l < 36 → MakeNumbers l leading0 ≠ Err e.
Proof.
  intros Hl. unfold MakeNumbers. destruct (Z.leb_spec 36 l); [lia|].
  by destruct leading0.
Qed.

(** The part of C4 the code keeps.  [CipherFromKey] returns an error
    exactly when the length of the key ([len(k)], in bytes) is 36 or more,
    or a letter (a rune of the key) occurs twice in it: the error is
    [KeyTooLong] in the first case and [DuplicateKeyLetter] for a shorter
    key with a repeated letter. *)
Lemma CipherFromKey_errors (k : string) (leading0 : bool) :
  (36 ≤ len k → CipherFromKey k leading0 = Err KeyTooLong)
  ∧ (len k < 36 → ¬ NoDup (range_string k) →
       CipherFromKey k leading0 = Err DuplicateKeyLetter)
  ∧ ((∃ e, CipherFromKey k leading0 = Err e) ↔ 36 ≤ len k ∨ ¬ NoDup (range_string k)).
Proof.
  unfold CipherFromKey.
  destruct (Z.leb_spec 36 (len k)) as [Hlong|Hshort].
  { split; [done|]. split; [lia|]. split; eauto. }
  split; [lia|].
  rewrite (key_letters_spec _ []) by apply NoDup_nil_2. simpl "++".
  destruct (decide (NoDup (range_string k))) as [Hnd|Hdup]; simpl.
  - split; [done|]. split; [|intros [?|?]; [lia|done]].
    intros [e He]. exfalso.
    destruct (MakeNumbers (len k) leading0) as [numbers|e'|p] eqn:Hn; simpl in He.
    + match type of He with
      | for_each ?xs ?body ?st ≫= _ = _ =>
          destruct (for_each xs body st) as [maps|e'|p] eqn:Hmaps
      end; simpl in He; try done.
      injection He as ->.
      revert Hmaps. apply for_each_not_Err. intros [l2n n2l] i e0. unfold fill_maps.
      destruct (index (range_string k) i) as [letter|?|?] eqn:Hl; simpl; try done.
      * destruct (index numbers i) as [number|?|?] eqn:Hnum; simpl; try done.
        by apply index_not_Err in Hnum.
      * by apply index_not_Err in Hl.
    + by apply MakeNumbers_not_Err in Hn.
    + done.
  - split; [done|]. split; eauto.
Qed.

Lemma CipherFromKey_errors_example :
  CipherFromKey "abcdefghijklmnopqrstuvwxyz0123456789" false = Err KeyTooLong
  ∧ CipherFromKey "level" true = Err DuplicateKeyLetter.
Proof.
  split.
  - apply (CipherFromKey_errors "abcdefghijklmnopqrstuvwxyz0123456789" false).
    vm_compute. discriminate.
  - apply (CipherFromKey_errors "level" true).
    + vm_compute. reflexivity.
    + apply (bool_decide_eq_false_1 _). vm_compute. reflexivity.
Defined.

(* ===================================================================== *)
(** ** Keys and bounds the program does not guard against                 *)
(* ===================================================================== *)

Lemma make_negative {A : Type} (size : Z) (zero : A) (n : Z) :
  n < 0 → make size zero n = Panic MakesliceLenOutOfRange.
Proof. intros Hn. unfold make. by destruct (Z.ltb_spec n 0); [|lia]. Qed.

Lemma make_too_long {A : Type} (size : Z) (zero : A) (n : Z) :
  maxAlloc < size * n → make size zero n = Panic MakesliceLenOutOfRange.
Proof.
  intros Hn. unfold make. destruct (Z.ltb_spec maxAlloc (size * n)); [|lia].
  by rewrite orb_true_r.
Qed.

Lemma make_Ok {A : Type} (size : Z) (zero : A) (n : Z) :
  0 ≤ n → size * n ≤ maxAlloc → make size zero n = Ok (replicate (Z.to_nat n) zero).
Proof.
  intros Hn Hsize. unfold make.
  destruct (Z.ltb_spec n 0); [lia|]. by destruct (Z.ltb_spec maxAlloc (size * n)); [lia|].
Qed.

Lemma scan_all_negative (c : Cipher) (maxSum : Z) (wl : WordList) :
  maxSum < 0 → scan_all c maxSum wl = Panic MakesliceLenOutOfRange.
Proof.
  intros Hn. unfold scan_all. by rewrite (make_negative sizeof_Word Word_zero) by done.
Qed.

Lemma scan_all_too_long (c : Cipher) (maxSum : Z) (wl : WordList) :
  maxAlloc < sizeof_Word * maxSum → scan_all c maxSum wl = Panic MakesliceLenOutOfRange.
Proof.
  intros Hn. unfold scan_all. by rewrite (make_too_long sizeof_Word Word_zero) by done.
Qed.

(** C2, where the code departs from it.  With a negative [maxSum] both
    variants of [FindValidSums] panic in [make([]Word, maxSum)] instead of
    returning an empty result, whatever the cipher and the word list. *)
Theorem C2_negative_maxSum_panics (c : Cipher) (wl : WordList) (n : positive) :
  Callback.FindValidSums record_triplet c (Z.neg n) wl [] = Panic MakesliceLenOutOfRange
  ∧ Slice.FindValidSums c (Z.neg n) wl = Panic MakesliceLenOutOfRange.
Proof.
  unfold Callback.FindValidSums, Slice.FindValidSums.
  by rewrite scan_all_negative by lia.
Qed.

(** The other half of C2 holds: with [maxSum = 0] nothing is emitted and
    nothing fails. *)
Lemma FindValidSums_zero (c : Cipher) (wl : WordList) :
  Callback.FindValidSums record_triplet c 0 wl [] = Ok []
  ∧ Slice.FindValidSums c 0 wl = Ok [].
Proof. done. Qed.

(** The example of the specification: the key "ab" without leading zero
    gives the value sequence ['1'], ['0'] and the cipher [cipher_ab]. *)
Lemma CipherFromKey_ab :
  MakeNumbers 2 false = Ok [chr "1"; chr "0"]
  ∧ CipherFromKey "ab" false = Ok cipher_ab.
Proof. split; by vm_compute. Qed.

(** C3, where the code departs from it.  The key "é" is one letter, two
    bytes long: [CipherFromKey] takes the number of bytes for the number of
    letters and panics reading [letters[1]]. *)
Theorem C3_multibyte_key_panics :
  len "é" = 2
  ∧ range_string "é" = [233]
  ∧ CipherFromKey "é" false = Panic IndexOutOfRange
  ∧ CipherFromKey "é" true = Panic IndexOutOfRange.
Proof. by vm_compute. Qed.

(** C1, where the code departs from it.  The one-letter key "a" is
    accepted and gives a cipher of base 1; with it [FindValidSums] panics
    for [maxSum = 1], on the first integer it visits, in
    [strconv.FormatInt], which wants a base of at least 2. *)
Theorem C1_one_letter_key_panics (wl : WordList) :
  ∃ c, CipherFromKey "a" false = Ok c
       ∧ base c = 1
       ∧ Callback.FindValidSums record_triplet c 1 wl [] = Panic IllegalFormatBase
       ∧ Slice.FindValidSums c 1 wl = Panic IllegalFormatBase.
Proof. eexists. split; [by vm_compute|]. done. Qed.

(** C8, where the code departs from it.  For the cipher of the one-letter
    key "a", and for that of the empty key, [fromInt] produces no
    representation at all: the conversion panics on the base. *)
Theorem C8_fromInt_panics_below_base_2 :
  (∃ c, CipherFromKey "a" false = Ok c ∧ fromInt c 0 = Panic IllegalFormatBase)
  ∧ (∃ c, CipherFromKey "" false = Ok c ∧ fromInt c 0 = Panic IllegalFormatBase).
Proof. split; (eexists; split; [by vm_compute|done]). Qed.

(* ===================================================================== *)
(** ** [FromLetters] and [FromNumbers] outside the cipher's domain        *)
(* ===================================================================== *)

(** C5 fails: for the cipher of the key "ab", the letter ['z'] has no entry
    in [letterToNumber] and the symbol ['7'] none in [numberToLetter], and
    yet both calls return, with the string of the zero rune. *)
Lemma C5_unmapped_symbol_is_returned :
  ∃ c, CipherFromKey "ab" false = Ok c
       ∧ letterToNumber c !! chr "z" = None
       ∧ FromLetters c "z" = NUL
       ∧ numberToLetter c !! chr "7" = None
       ∧ FromNumbers c "7" = NUL.
Proof. eexists. split; [by vm_compute|]. by vm_compute. Qed.

(* ===================================================================== *)
(** ** [strconv]: formatting and parsing are inverse                      *)
(* ===================================================================== *)

Lemma digit_facts (d : Z) :
  0 ≤ d < 36 →
  digit_value (digit d) = Some d
  ∧ 0 ≤ digit d < 128
  ∧ digit d ≠ chr "+" ∧ digit d ≠ chr "-" ∧ digit d ≠ chr "_"
  ∧ digit d = value_symbol d.
Proof.
  intros Hd.
  assert (Forall (λ d, digit_value (digit d) = Some d
                       ∧ 0 ≤ digit d < 128
                       ∧ digit d ≠ chr "+" ∧ digit d ≠ chr "-" ∧ digit d ≠ chr "_"
                       ∧ digit d = value_symbol d) (seqZ 0 36)) as Hall.
  { apply (bool_decide_unpack _). by vm_compute. }
  rewrite Forall_seqZ in Hall. apply Hall. lia.
Qed.

Lemma bytes_of_string_of_bytes (bs : list Z) :
  Forall (λ b, 0 ≤ b < 256) bs → bytes_of_string (string_of_bytes bs) = bs.
Proof.
  intros Hbs. unfold bytes_of_string, string_of_bytes.
  rewrite list_ascii_of_string_of_list_ascii, <- list_fmap_compose.
  rewrite <- (list_fmap_id bs) at 2.
  apply Forall_fmap_ext. eapply Forall_impl; [exact Hbs|].
  intros c Hc. unfold compose, chr. simpl in *.
  rewrite N_ascii_embedding by lia. lia.
Qed.

Lemma digits_value_le (b n : Z) (ds : list Z) :
  1 ≤ b → 0 ≤ n → Forall (λ d, 0 ≤ d < b) ds → n ≤ digits_value b n ds.
Proof.
  intros Hb Hn Hds. revert n Hn.
  induction Hds as [|d ds Hd _ IH]; intros n Hn; simpl; [done|].
  etrans; [|apply IH]; nia.
Qed.

Lemma digits_value_snoc (b n : Z) (ds : list Z) (d : Z) :
  digits_value b n (ds ++ [d]) = digits_value b n ds * b + d.
Proof. unfold digits_value. by rewrite foldl_app. Qed.

Section Strconv.
Context (b : Z) (Hb : 2 ≤ b ≤ 36).

Lemma ParseUint_loop_numeral (cs : list Z) (n : Z) :
  Forall (λ c, ∃ d, digit_value c = Some d ∧ 0 ≤ d < b) cs →
  0 ≤ n → digits_value b n (digit_values cs) ≤ maxUint64 →
  ParseUint_loop b (maxUint64 / b + 1) maxUint64 false cs n false
  = inr (digits_value b n (digit_values cs), false).
Proof.
  intros Hcs. revert n.
  induction Hcs as [|c cs (d & Hc & Hd) Hcs IH]; intros n Hn Hmax; [done|].
  assert (digit_values (c :: cs) = d :: digit_values cs) as Hdv.
  { unfold digit_values. by rewrite fmap_cons, Hc. }
  rewrite Hdv in *.
  change (digits_value b n (d :: digit_values cs))
    with (digits_value b (n * b + d) (digit_values cs)) in *.
  cbn [ParseUint_loop]. rewrite Hc, andb_false_r.
  assert (n * b + d ≤ maxUint64) as Hstep.
  { etrans; [|exact Hmax]. apply digits_value_le; [lia|nia|].
    apply Forall_fmap. eapply Forall_impl; [exact Hcs|].
    intros c' (d' & Hc' & Hd'). simpl. by rewrite Hc'. }
  assert (n ≤ maxUint64 / b) as Hn' by (apply Z.div_le_lower_bound; nia).
  rewrite (Z.mod_small b 256) by lia.
  destruct (Z.leb_spec b d); [lia|].
  destruct (Z.leb_spec (maxUint64 / b + 1) n); [lia|].
  unfold maxUint64 in *. unfold uint64.
  rewrite (Z.mod_small (n * b)) by nia.
  rewrite (Z.mod_small (n * b + d)) by nia.
  destruct (Z.ltb_spec (n * b + d) (n * b)); [lia|].
  destruct (Z.ltb_spec (2 ^ 64 - 1) (n * b + d)); [lia|].
  simpl. apply IH; [nia|done].
Qed.

Lemma ParseUint_numeral (cs : list Z) :
  cs ≠ [] → Forall (λ c, ∃ d, digit_value c = Some d ∧ 0 ≤ d < b) cs →
  digits_value b 0 (digit_values cs) ≤ maxUint64 →
  ParseUint cs b = inr (digits_value b 0 (digit_values cs)).
Proof.
  intros Hne Hcs Hmax. unfold ParseUint.
  destruct cs as [|c cs]; [done|].
  destruct (Z.leb_spec 2 b); [|lia]. destruct (Z.leb_spec b 36); [|lia]. simpl andb. cbv iota.
  destruct (Z.eqb_spec b 0); [lia|].
  by rewrite ParseUint_loop_numeral.
Qed.

Lemma digit_values_digit (ds : list Z) :
  Forall (λ d, 0 ≤ d < b) ds → digit_values (digit <$> ds) = ds.
Proof.
  intros Hds. unfold digit_values. rewrite <- list_fmap_compose.
  rewrite <- (list_fmap_id ds) at 2. apply Forall_fmap_ext.
  eapply Forall_impl; [exact Hds|]. intros d Hd. simpl in *.
  by destruct (digit_facts d) as (-> & _); [lia|].
Qed.

Lemma ParseUint_digits (ds : list Z) :
  ds ≠ [] → Forall (λ d, 0 ≤ d < b) ds → digits_value b 0 ds ≤ maxUint64 →
  ParseUint (digit <$> ds) b = inr (digits_value b 0 ds).
Proof.
  intros Hne Hds Hmax.
  rewrite ParseUint_numeral; rewrite ?digit_values_digit; try done.
  - by destruct ds.
  - apply Forall_fmap. eapply Forall_impl; [exact Hds|]. intros d Hd. simpl in *.
    exists d. by destruct (digit_facts d) as (-> & _); [lia|].
Qed.

Lemma formatBits_loop_spec (i k : nat) (u : Z) (a : list Z) :
  0 ≤ u < 2 ^ Z.of_nat k → (1 ≤ k ≤ i)%nat →
  ∃ i' ds,
    formatBits_loop i u b a = Ok (i', (digit <$> ds) ++ a)
    ∧ (i - k ≤ i')%nat
    ∧ ds ≠ []
    ∧ Forall (λ d, 0 ≤ d < b) ds
    ∧ digits_value b 0 ds = u.
Proof.
  revert k u a. induction i as [|i IH]; intros k u a Hu Hk; [lia|]. simpl.
  destruct (Z.leb_spec b u) as [Hge|Hlt].
  - assert (0 ≤ u mod b < b) as Hmod by (apply Z.mod_pos_bound; lia).
    assert (u = b * (u / b) + u mod b) as Hdiv by (apply Z.div_mod; lia).
    assert (1 ≤ u / b) as Hq by (apply Z.div_le_lower_bound; lia).
    destruct k as [|k]; [lia|].
    assert (u / b < 2 ^ Z.of_nat k) as Hq'.
    { apply Z.div_lt_upper_bound; [lia|].
      rewrite Nat2Z.inj_succ, Z.pow_succ_r in Hu by lia. nia. }
    assert (k ≠ 0%nat) as Hk0.
    { intros ->. simpl in Hq'. lia. }
    destruct (IH k (u / b) (digit (u - u / b * b) :: a)) as (i' & ds & Hloop & Hi' & Hne & Hds & Hval);
      [lia|lia|].
    exists i', (ds ++ [u - u / b * b]). split; [|split; [|split; [|split]]].
    + by rewrite Hloop, fmap_app, <- app_assoc.
    + lia.
    + by destruct ds.
    + apply Forall_app. split; [done|]. apply Forall_singleton. lia.
    + rewrite digits_value_snoc, Hval. lia.
  - exists i, [u]. split; [done|]. split; [lia|]. split; [done|].
    split; [apply Forall_singleton; lia|]. unfold digits_value. simpl. lia.
Qed.

(** [FormatInt] succeeds on every [int64], and [ParseInt] reads the value
    back. *)
Lemma ParseInt_FormatInt (v : Z) :
  - 2 ^ 63 ≤ v < 2 ^ 63 →
  ∃ s, FormatInt v b = Ok s ∧ ParseInt s b = Ok v.
Proof.
  intros Hv. unfold FormatInt.
  change (Z.of_nat (String.length digits)) with 36.
  destruct (Z.ltb_spec b 2); [lia|]. destruct (Z.ltb_spec 36 b); [lia|]. simpl orb. cbv iota.
  set (u := if v <? 0 then uint64 (- uint64 v) else uint64 v).
  assert (u = Z.abs v) as Hu.
  { unfold u, uint64. change (2 ^ 64) with 18446744073709551616.
    change (2 ^ 63) with 9223372036854775808 in Hv.
    destruct (Z.ltb_spec v 0).
    - rewrite <- (Z.mod_add v 1) by lia. rewrite (Z.mod_small (v + _)) by lia.
      rewrite <- (Z.mod_add _ 1) by lia. rewrite Z.mod_small by lia. lia.
    - rewrite Z.mod_small by lia. lia. }
  destruct (formatBits_loop_spec 65 64 u []) as (i' & ds & Hloop & Hi' & Hne & Hds & Hval).
  { rewrite Hu. change (2 ^ Z.of_nat 64) with (2 * 2 ^ 63). lia. }
  { lia. }
  rewrite Hloop. simpl. rewrite app_nil_r.
  assert (Forall (λ c, 0 ≤ c < 256) (digit <$> ds)) as Hbytes.
  { apply Forall_fmap. eapply Forall_impl; [exact Hds|]. intros d Hd. simpl in *.
    destruct (digit_facts d) as (_ & ? & _); lia. }
  assert (digits_value b 0 ds ≤ maxUint64) as Hmax.
  { rewrite Hval, Hu. unfold maxUint64. change (2 ^ 64) with (2 * 2 ^ 63). lia. }
  pose proof (ParseUint_digits ds Hne Hds Hmax) as Hparse. rewrite Hval in Hparse.
  destruct (Z.ltb_spec v 0) as [Hneg|Hpos].
  - destruct i' as [|i']; [lia|]. eexists. split; [done|].
    unfold ParseInt. rewrite bytes_of_string_of_bytes.
    2:{ apply Forall_cons. split; [by vm_compute|done]. }
    change (chr "-" =? chr "+") with false. change (chr "-" =? chr "-") with true. cbv iota.
    rewrite Hparse. simpl andb.
    destruct (Z.ltb_spec (2 ^ 63) u); [lia|]. cbv iota.
    f_equal. unfold int64. change (2 ^ 64) with 18446744073709551616.
    change (2 ^ 63) with 9223372036854775808 in *.
    destruct (decide (u = 9223372036854775808)) as [Hmin|Hmin].
    + rewrite Hmin. replace v with (-9223372036854775808) by lia. done.
    + rewrite (Z.mod_small (u + _)) by lia.
      replace (- (u + 9223372036854775808 - 9223372036854775808) + 9223372036854775808)
        with (v + 9223372036854775808) by lia.
      rewrite Z.mod_small by lia. lia.
  - eexists. split; [done|].
    unfold ParseInt. rewrite bytes_of_string_of_bytes by done.
    destruct ds as [|d ds]; [done|]. rewrite fmap_cons.
    apply Forall_cons in Hds as [Hd Hds].
    destruct (digit_facts d) as (_ & _ & Hplus & Hminus & _); [lia|].
    destruct (Z.eqb_spec (digit d) (chr "+")); [done|].
    destruct (Z.eqb_spec (digit d) (chr "-")); [done|].
    rewrite <- fmap_cons, Hparse. simpl andb.
    destruct (Z.leb_spec (2 ^ 63) u); [lia|]. cbv iota.
    f_equal. unfold int64. change (2 ^ 64) with 18446744073709551616.
    change (2 ^ 63) with 9223372036854775808 in *.
    rewrite Z.mod_small by lia. lia.
Qed.
End Strconv.

(* ===================================================================== *)
(** ** [BaseAdd]                                                          *)
(* ===================================================================== *)

Lemma digit_value_nonneg (c d : Z) : digit_value c = Some d → 0 ≤ d.
Proof.
  unfold digit_value.
  destruct (Z.leb_spec (chr "0") c); simpl.
  - destruct (c <=? chr "9"); simpl.
    + intros [= <-]. lia.
    + destruct (Z.leb_spec (chr "a") (lower c)); simpl; [|done].
      destruct (lower c <=? chr "z"); [|done]. intros [= <-]. lia.
  - destruct (Z.leb_spec (chr "a") (lower c)); simpl; [|done].
    destruct (lower c <=? chr "z"); [|done]. intros [= <-]. lia.
Qed.

Section BaseArithmetic.
Context (b : Z) (Hb : 2 ≤ b ≤ 36).

(** [ParseInt] accepts the numerals of the specification whose value is
    an [int64], and finds their value. *)
Lemma ParseInt_numeral (s : string) :
  is_numeral b s = true → - 2 ^ 63 ≤ numeral_value b s < 2 ^ 63 →
  ParseInt s b = Ok (numeral_value b s).
Proof.
  unfold is_numeral, numeral_value, ParseInt, numeral_parts.
  destruct (bytes_of_string s) as [|c0 s']; [done|].
  destruct (if c0 =? chr "+" then (false, s')
            else if c0 =? chr "-" then (true, s') else (false, c0 :: s')) as [neg cs].
  intros [Hne Hall]%andb_prop Hv. simpl in Hne, Hall, Hv.
  apply bool_decide_eq_true in Hne.
  assert (Forall (λ c, ∃ d, digit_value c = Some d ∧ 0 ≤ d < b) cs) as Hcs.
  { apply Forall_forall. intros c Hc%list_elem_of_In.
    apply (proj1 (forallb_forall _ _) Hall) in Hc.
    destruct (digit_value c) as [d|] eqn:Hd; [|done].
    exists d. split; [done|]. apply digit_value_nonneg in Hd. lia. }
  set (m := digits_value b 0 (digit_values cs)) in *.
  assert (0 ≤ m) as Hm.
  { apply (digits_value_le b 0); [lia|lia|].
    apply Forall_fmap. eapply Forall_impl; [exact Hcs|].
    intros c (d & Hc & Hd). simpl. by rewrite Hc. }
  change (2 ^ 63) with 9223372036854775808 in *.
  assert (m ≤ maxUint64) as Hmax by (unfold maxUint64; destruct neg; lia).
  rewrite (ParseUint_numeral b Hb cs Hne Hcs Hmax). fold m.
  unfold int64. change (2 ^ 64) with 18446744073709551616.
  change (2 ^ 63) with 9223372036854775808.
  destruct neg; simpl andb.
  - destruct (Z.ltb_spec 9223372036854775808 m); [lia|]. cbv iota. f_equal.
    destruct (decide (m = 9223372036854775808)) as [->|Hmin]; [done|].
    rewrite (Z.mod_small (m + _)) by lia.
    replace (- (m + 9223372036854775808 - 9223372036854775808) + 9223372036854775808)
      with (9223372036854775808 - m) by lia.
    rewrite Z.mod_small by lia. lia.
  - destruct (Z.leb_spec 9223372036854775808 m); [lia|]. cbv iota. f_equal.
    rewrite Z.mod_small by lia. lia.
Qed.

(** When both numerals parse and their sum is an [int64], [BaseAdd]
    formats the exact sum. *)
Lemma BaseAdd_exact (n1 n2 : string) (v1 v2 : Z) :
  ParseInt n1 b = Ok v1 → ParseInt n2 b = Ok v2 → - 2 ^ 63 ≤ v1 + v2 < 2 ^ 63 →
  ∃ s, BaseAdd n1 n2 b = Ok s ∧ ParseInt s b = Ok (v1 + v2).
Proof.
  intros H1 H2 Hsum. unfold BaseAdd. rewrite H1, H2.
  replace (int64 (v1 + v2)) with (v1 + v2).
  - by apply ParseInt_FormatInt.
  - spell_int64. rewrite Z.mod_small by lia. lia.
Qed.
End BaseArithmetic.

(** C9, as the code has it.  For every base [b] with [2 <= b <= 36] and
    all valid base-[b] numerals [n1] and [n2] whose values, and the sum of
    whose values, are within the signed 64-bit integers, [BaseAdd] succeeds
    and returns a string that [ParseInt] reads back in base [b] as the
    exact sum of the two values. *)
Theorem C9_BaseAdd_exact_within_int64 (b : Z) (n1 n2 : string) :
  2 ≤ b ≤ 36 →
  is_numeral b n1 = true → is_numeral b n2 = true →
  - 2 ^ 63 ≤ numeral_value b n1 < 2 ^ 63 →
  - 2 ^ 63 ≤ numeral_value b n2 < 2 ^ 63 →
  - 2 ^ 63 ≤ numeral_value b n1 + numeral_value b n2 < 2 ^ 63 →
  ∃ s, BaseAdd n1 n2 b = Ok s
       ∧ ParseInt s b = Ok (numeral_value b n1 + numeral_value b n2).
Proof.
  intros Hb Hn1 Hn2 Hv1 Hv2 Hsum.
  apply (BaseAdd_exact b Hb); [by apply ParseInt_numeral|by apply ParseInt_numeral|done].
Qed.

Lemma C9_BaseAdd_exact_within_int64_witness :
  ∃ s, BaseAdd "-1z" "Zz" 36 = Ok s
       ∧ ParseInt s 36 = Ok (numeral_value 36 "-1z" + numeral_value 36 "Zz").
Proof.
  apply (C9_BaseAdd_exact_within_int64 36 "-1z" "Zz").
  - lia.
  - reflexivity.
  - reflexivity.
  - vm_compute. split; discriminate || reflexivity.
  - vm_compute. split; discriminate || reflexivity.
  - vm_compute. split; discriminate || reflexivity.
Defined.

(** C9 fails beyond 64 bits.  [2^62], written in base 10, is a valid
    numeral; added to itself it gives [-2^63], the sum having wrapped
    around.  And [2^63], a valid numeral too, is refused by [ParseInt], so
    that [BaseAdd] returns an error. *)
Lemma C9_BaseAdd_wraps_around :
  is_numeral 10 "4611686018427387904" = true
  ∧ numeral_value 10 "4611686018427387904" = 2 ^ 62
  ∧ BaseAdd "4611686018427387904" "4611686018427387904" 10 = Ok "-9223372036854775808"
  ∧ ParseInt "-9223372036854775808" 10 = Ok (- 2 ^ 63)
  ∧ ¬ (∃ s, BaseAdd "4611686018427387904" "4611686018427387904" 10 = Ok s
            ∧ ParseInt s 10 = Ok (numeral_value 10 "4611686018427387904"
                                  + numeral_value 10 "4611686018427387904"))
  ∧ is_numeral 10 "9223372036854775808" = true
  ∧ BaseAdd "9223372036854775808" "0" 10
    = Err (Errorf "invalid base-11 string n1: "
             (NumError "ParseInt" "9223372036854775808" ErrRange)).
Proof.
  split; [by vm_compute|]. split; [by vm_compute|]. split; [by vm_compute|].
  split; [by vm_compute|]. split; [|by vm_compute].
  intros (s & Hs & Hp). vm_compute in Hs. injection Hs as <-.
  vm_compute in Hp. discriminate.
Qed.

(* ===================================================================== *)
(** ** [fromInt]                                                          *)
(* ===================================================================== *)

Lemma int64_range (v : Z) : - 2 ^ 63 ≤ int64 v < 2 ^ 63.
Proof.
  spell_int64.
  pose proof (Z.mod_pos_bound (v + 9223372036854775808) 18446744073709551616). lia.
Qed.

Lemma int64_small (v : Z) : - 2 ^ 63 ≤ v < 2 ^ 63 → int64 v = v.
Proof. intros Hv. spell_int64. rewrite Z.mod_small by lia. lia. Qed.

(** With a base that [strconv] accepts, [fromInt] returns: the numeral of
    [val], which reads back as [val], and its decoding. *)
Lemma fromInt_Ok (c : Cipher) (val : Z) :
  2 ≤ base c ≤ 36 →
  ∃ numbers,
    fromInt c val = Ok (numbers, FromNumbers c numbers)
    ∧ ParseInt numbers (base c) = Ok (int64 val).
Proof.
  intros Hb. unfold fromInt, Itoa.
  destruct (ParseInt_FormatInt (base c) Hb (int64 val) (int64_range val)) as (s & Hs & Hp).
  exists s. destruct (Z.eqb_spec (base c) 10) as [H10|_].
  - rewrite <- H10, Hs. done.
  - rewrite Hs. done.
Qed.

(** Outside these bases [fromInt] panics. *)
Lemma fromInt_Panic (c : Cipher) (val : Z) :
  ¬ (2 ≤ base c ≤ 36) → fromInt c val = Panic IllegalFormatBase.
Proof.
  intros Hb. unfold fromInt, Itoa.
  destruct (Z.eqb_spec (base c) 10); [lia|].
  unfold FormatInt. change (Z.of_nat (String.length digits)) with 36.
  guard_ltb (base c) 2; [done|]. by guard_ltb 36 (base c).
Qed.

(* ===================================================================== *)
(** ** [FindValidSums]: what is emitted                                   *)
(* ===================================================================== *)

Section Scan.
Context (c : Cipher) (wl : WordList) (Hb : 2 ≤ base c ≤ 36).

Lemma scan_body_spec (N m : Z) (st : scan) :
  0 ≤ m < N → scanned c wl N m st →
  ∃ st', scan_body c wl st m = Ok st' ∧ scanned c wl N (m + 1) st'.
Proof.
  intros Hm (Hvn & Hlen1 & Hlen2 & Hiv & Hvi).
  destruct (fromInt_Ok c m Hb) as (nums & Hfrom & _).
  unfold scan_body. rewrite Hfrom. simpl.
  assert (word c m = {| numbers := nums; letters := FromNumbers c nums |}) as Hword.
  { unfold word. by rewrite Hfrom. }
  assert (valid c wl m = IsValidWord (FromNumbers c nums) wl) as Hvalid.
  { unfold valid. by rewrite Hword. }
  rewrite <- Hvalid, <- Hword.
  assert (seqZ 0 (m + 1) = seqZ 0 m ++ [m]) as Hseq.
  { rewrite seqZ_app by lia. f_equal. }
  unfold assign. rewrite Hlen1, Hlen2.
  destruct (Z.leb_spec 0 m); [|lia]. destruct (Z.ltb_spec m (Z.of_nat (Z.to_nat N))); [|lia].
  destruct (valid c wl m) eqn:Hv; simpl.
  - eexists. split; [done|]. repeat split; simpl.
    + rewrite Hseq, filter_app, Hvn. f_equal. by rewrite filter_cons_True.
    + by rewrite length_insert.
    + by rewrite length_insert.
    + intros k Hk. destruct (decide (k = m)) as [->|Hne].
      * rewrite list_lookup_insert_eq by lia. rewrite Hv.
        by rewrite bool_decide_eq_true_2 by lia.
      * rewrite list_lookup_insert_ne by lia. rewrite Hiv by done.
        do 2 f_equal. apply bool_decide_ext. lia.
    + intros k Hk Hvk. destruct (decide (k = m)) as [->|Hne].
      * by rewrite list_lookup_insert_eq by lia.
      * rewrite list_lookup_insert_ne by lia. apply Hvi; [lia|done].
  - exists st. split; [done|]. repeat split; try done.
    + rewrite Hseq, filter_app, Hvn. rewrite filter_cons_False by congruence.
      by rewrite filter_nil, app_nil_r.
    + intros k Hk. rewrite Hiv by done. destruct (decide (k = m)) as [->|Hne].
      * rewrite Hv. by rewrite !andb_false_r.
      * do 2 f_equal. apply bool_decide_ext. lia.
    + intros k Hk Hvk. apply Hvi; [|done].
      destruct (decide (k = m)) as [->|Hne]; [congruence|lia].
Qed.

Lemma scan_loop_spec (N : Z) (n : nat) (st : scan) :
  Z.of_nat n ≤ N → scanned c wl N 0 st →
  ∃ st', for_each (seqZ 0 (Z.of_nat n)) (scan_body c wl) st = Ok st'
         ∧ scanned c wl N (Z.of_nat n) st'.
Proof.
  intros Hn Hst. induction n as [|n IH].
  - exists st. done.
  - destruct IH as (st1 & Hloop & Hst1); [lia|].
    destruct (scan_body_spec N (Z.of_nat n) st1) as (st2 & Hbody & Hst2); [lia|done|].
    exists st2. rewrite seqZ_S, Z.add_0_l, for_each_app, Hloop. simpl. rewrite Hbody. simpl.
    split; [done|]. by replace (Z.of_nat (S n)) with (Z.of_nat n + 1) by lia.
Qed.

Lemma scan_all_spec (maxSum : Z) :
  0 ≤ maxSum → sizeof_Word * maxSum ≤ maxAlloc →
  ∃ st, scan_all c maxSum wl = Ok st ∧ scanned c wl maxSum maxSum st.
Proof.
  intros Hmax Hsize. unfold scan_all, range.
  rewrite !make_Ok by (unfold sizeof_Word, sizeof_bool in *; lia). simpl.
  destruct (Z_of_nat_complete maxSum Hmax) as [n ->].
  apply scan_loop_spec; [lia|].
  repeat split; simpl; rewrite ?length_replicate; try done.
  - intros k Hk. rewrite lookup_replicate_2 by lia.
    by rewrite bool_decide_eq_false_2 by lia.
  - lia.
Qed.
End Scan.

Lemma index_lookup {A : Type} (s : list A) (i : Z) (x : A) :
  0 ≤ i → s !! Z.to_nat i = Some x → index s i = Ok x.
Proof. intros. by apply index_Ok. Qed.

Lemma filter_none {A : Type} (P : A → Prop) `{!∀ x, Decision (P x)} (l : list A) :
  Forall (λ x, ¬ P x) l → filter P l = [].
Proof.
  induction 1 as [|x l Hx _ IH]; [done|]. by rewrite filter_cons_False.
Qed.

Lemma StronglySorted_seqZ (m n : Z) : StronglySorted Z.le (seqZ m n).
Proof.
  destruct (Z.le_gt_cases n 0) as [Hn|Hn]; [rewrite seqZ_nil by done; constructor|].
  destruct (Z_of_nat_complete n) as [k ->]; [lia|]. clear Hn.
  revert m. induction k as [|k IH]; intros m; [constructor|].
  rewrite seqZ_cons by lia. constructor.
  - replace (Z.pred (Z.of_nat (S k))) with (Z.of_nat k) by lia. apply IH.
  - apply Forall_seqZ. lia.
Qed.

Lemma StronglySorted_filter {A : Type} (R : relation A) (P : A → Prop)
    `{!∀ x, Decision (P x)} (l : list A) :
  StronglySorted R l → StronglySorted R (filter P l).
Proof.
  induction 1 as [|x l _ IH Hx]; [constructor|].
  rewrite filter_cons. destruct (decide (P x)); [|done].
  constructor; [done|]. apply Forall_forall. intros y [_ Hy]%list_elem_of_filter.
  by eapply Forall_forall in Hx.
Qed.

Lemma halves_below (maxSum : Z) : 0 ≤ maxSum → 0 ≤ maxSum ÷ 2 ∧ 2 * (maxSum ÷ 2) ≤ maxSum.
Proof.
  intros H. rewrite Z.quot_div_nonneg by lia.
  pose proof (Z.div_mod maxSum 2). pose proof (Z.mod_pos_bound maxSum 2).
  pose proof (Z.div_pos maxSum 2). lia.
Qed.

Section Pairs.
Context (c : Cipher) (wl : WordList) (maxSum : Z) (st : scan).
Context (Hmax : 0 ≤ maxSum) (Hst : scanned c wl maxSum maxSum st).

Lemma isValid_index (k : Z) :
  0 ≤ k < maxSum → index (isValid st) k = Ok (valid c wl k).
Proof.
  intros Hk. destruct Hst as (_ & _ & _ & Hiv & _).
  apply index_lookup; [lia|]. rewrite Hiv by done.
  by rewrite bool_decide_eq_true_2 by lia.
Qed.

Lemma validInfo_index (k : Z) :
  0 ≤ k < maxSum → valid c wl k = true → index (validInfo st) k = Ok (word c k).
Proof.
  intros Hk Hv. destruct Hst as (_ & _ & _ & _ & Hvi).
  apply index_lookup; [lia|]. by apply Hvi.
Qed.

Lemma inner_spec (i : Z) (js : list Z) (result : list Triplet) :
  0 ≤ i < maxSum ÷ 2 →
  StronglySorted Z.le js →
  Forall (λ j, 0 ≤ j < maxSum ∧ valid c wl j = true) js →
  Slice.inner st (maxSum ÷ 2) i (word c i) js result
  = Ok (result ++ sums_of c wl (maxSum ÷ 2) i js).
Proof.
  intros Hi Hsorted Hjs. revert result. pose proof (halves_below maxSum Hmax) as Hhalf.
  unfold sums_of.
  induction Hsorted as [|j js _ IH Hj]; intros result; simpl.
  { by rewrite app_nil_r. }
  apply Forall_cons in Hjs as [[Hjr Hjv] Hjs].
  destruct (Z.ltb_spec j i).
  { rewrite filter_cons_False by lia. by apply IH. }
  destruct (Z.leb_spec (maxSum ÷ 2) j).
  { rewrite filter_none; [by rewrite app_nil_r|].
    apply Forall_cons. split; [lia|].
    eapply Forall_impl; [exact Hj|]. simpl. lia. }
  rewrite isValid_index by lia.
  destruct (valid c wl (i + j)) eqn:Hv; simpl.
  - rewrite !validInfo_index by (done || lia). simpl.
    rewrite filter_cons_True by (split; [lia|split; [lia|done]]).
    rewrite IH by done. by rewrite fmap_cons, <- app_assoc.
  - rewrite filter_cons_False by (intros (_ & _ & ?); congruence). by apply IH.
Qed.

Lemma outer_spec (ivals : list Z) (result : list Triplet) :
  StronglySorted Z.le ivals →
  Forall (λ i, 0 ≤ i < maxSum ∧ valid c wl i = true) ivals →
  StronglySorted Z.le (validNumbers st) →
  Forall (λ j, 0 ≤ j < maxSum ∧ valid c wl j = true) (validNumbers st) →
  Slice.outer st (maxSum ÷ 2) ivals result
  = Ok (result ++ (filter (λ i, i < maxSum ÷ 2) ivals
                     ≫= λ i, sums_of c wl (maxSum ÷ 2) i (validNumbers st))).
Proof.
  intros Hsorted Hvalid Hvs1 Hvs2. revert result.
  induction Hsorted as [|i ivals _ IH Hi]; intros result; simpl.
  { by rewrite app_nil_r. }
  apply Forall_cons in Hvalid as [[Hir Hiv] Hvalid].
  destruct (Z.leb_spec (maxSum ÷ 2) i).
  { rewrite filter_none; [by rewrite app_nil_r|].
    apply Forall_cons. split; [lia|].
    eapply Forall_impl; [exact Hi|]. simpl. lia. }
  rewrite validInfo_index by done. simpl.
  rewrite inner_spec by (done || lia). simpl.
  rewrite IH by done. rewrite filter_cons_True by done.
  by rewrite bind_cons, <- app_assoc.
Qed.
End Pairs.

(** With a base that [strconv] accepts and a bound within the limits of
    [make], the model of [FindValidSums] returns the triplets of
    [valid_sums]. *)
Lemma FindValidSums_valid_sums (c : Cipher) (wl : WordList) (maxSum : Z) :
  2 ≤ base c ≤ 36 → 0 ≤ maxSum → sizeof_Word * maxSum ≤ maxAlloc →
  Slice.FindValidSums c maxSum wl = Ok (valid_sums c wl maxSum).
Proof.
  intros Hb Hmax Hsize. unfold Slice.FindValidSums.
  destruct (scan_all_spec c wl Hb maxSum Hmax Hsize) as (st & -> & Hst). simpl.
  pose proof Hst as (Hvn & _).
  assert (StronglySorted Z.le (validNumbers st)) as Hsorted.
  { rewrite Hvn. apply StronglySorted_filter, StronglySorted_seqZ. }
  assert (Forall (λ j, 0 ≤ j < maxSum ∧ valid c wl j = true) (validNumbers st)) as Hvalid.
  { rewrite Hvn. apply Forall_forall. intros j [Hj Hin]%list_elem_of_filter.
    apply elem_of_seqZ in Hin. split; [lia|done]. }
  rewrite (outer_spec c wl maxSum st Hmax Hst) by done.
  unfold valid_sums, range. by rewrite Hvn.
Qed.

(** The triplets of [valid_sums]: one for each pair of valid integers
    [i <= j] below [maxSum / 2] whose sum is valid. *)
Lemma elem_of_valid_sums (c : Cipher) (wl : WordList) (maxSum : Z) (t : Triplet) :
  0 ≤ maxSum →
  t ∈ valid_sums c wl maxSum ↔
  ∃ i j, 0 ≤ i ∧ i ≤ j ∧ j < maxSum ÷ 2 ∧ i + j < maxSum
         ∧ valid c wl i = true ∧ valid c wl j = true ∧ valid c wl (i + j) = true
         ∧ t = (word c i, word c j, word c (i + j)).
Proof.
  intros Hmax. pose proof (halves_below maxSum Hmax) as Hhalf.
  unfold valid_sums, sums_of, range. rewrite list_elem_of_bind. split.
  - intros (i & Ht & Hi).
    apply list_elem_of_fmap in Ht as (j & -> & Hj).
    apply list_elem_of_filter in Hj as ((Hij & Hjm & Hv) & Hj).
    apply list_elem_of_filter in Hj as (Hvj & Hj). apply elem_of_seqZ in Hj.
    apply list_elem_of_filter in Hi as (Him & Hi).
    apply list_elem_of_filter in Hi as (Hvi & Hi). apply elem_of_seqZ in Hi.
    exists i, j. repeat split; (done || lia).
  - intros (i & j & Hi & Hij & Hjm & Hsum & Hvi & Hvj & Hv & ->).
    exists i. split.
    + apply list_elem_of_fmap. exists j. split; [done|].
      apply list_elem_of_filter. split; [done|].
      apply list_elem_of_filter. split; [done|]. apply elem_of_seqZ. lia.
    + apply list_elem_of_filter. split; [lia|].
      apply list_elem_of_filter. split; [done|]. apply elem_of_seqZ. lia.
Qed.

(** The numeral of [word c v] reads back as [v], in the cipher's base. *)
Lemma word_value (c : Cipher) (v : Z) :
  2 ≤ base c ≤ 36 → - 2 ^ 63 ≤ v < 2 ^ 63 →
  ParseInt (numbers (word c v)) (base c) = Ok v
  ∧ letters (word c v) = FromNumbers c (numbers (word c v)).
Proof.
  intros Hb Hv. destruct (fromInt_Ok c v Hb) as (nums & Hfrom & Hparse).
  unfold word. rewrite Hfrom. simpl. by rewrite (int64_small v) in Hparse.
Qed.

(** With a base that [strconv] refuses, the first integer visited makes
    the first loop panic. *)
Lemma scan_all_illegal_base (c : Cipher) (wl : WordList) (maxSum : Z) :
  ¬ (2 ≤ base c ≤ 36) → 0 < maxSum → sizeof_Word * maxSum ≤ maxAlloc →
  scan_all c maxSum wl = Panic IllegalFormatBase.
Proof.
  intros Hb Hmax Hsize. unfold scan_all, range.
  rewrite !make_Ok by (unfold sizeof_Word, sizeof_bool in *; lia).
  rewrite seqZ_cons by done. cbn [mbind outcome_bind for_each].
  assert (∀ st, scan_body c wl st 0 = Panic IllegalFormatBase) as ->; [|done].
  intros st. unfold scan_body. by rewrite fromInt_Panic.
Qed.

(** The model of [FindValidSums], case by case. *)
Lemma FindValidSums_cases (c : Cipher) (wl : WordList) (maxSum : Z) :
  Slice.FindValidSums c maxSum wl
  = if decide (maxSum < 0 ∨ maxAlloc < sizeof_Word * maxSum)
    then Panic MakesliceLenOutOfRange
    else if decide (maxSum = 0) then Ok []
    else if decide (2 ≤ base c ≤ 36) then Ok (valid_sums c wl maxSum)
    else Panic IllegalFormatBase.
Proof.
  destruct (decide (maxSum < 0 ∨ maxAlloc < sizeof_Word * maxSum)) as [[?|?]|Hmax].
  { unfold Slice.FindValidSums. by rewrite scan_all_negative. }
  { unfold Slice.FindValidSums. by rewrite scan_all_too_long. }
  destruct (decide (maxSum = 0)) as [->|]; [done|].
  destruct (decide (2 ≤ base c ≤ 36)).
  - apply FindValidSums_valid_sums; [done|lia|lia].
  - unfold Slice.FindValidSums. by rewrite scan_all_illegal_base by (done || lia).
Qed.

(** A call of [FindValidSums] that returns had a bound that [make]
    accepts; it returns the triplets of [valid_sums], and its base is one
    that [strconv] accepts unless the bound is 0. *)
Lemma FindValidSums_Ok (c : Cipher) (wl : WordList) (maxSum : Z) (ts : list Triplet) :
  Slice.FindValidSums c maxSum wl = Ok ts →
  0 ≤ maxSum ∧ sizeof_Word * maxSum ≤ maxAlloc
  ∧ ts = valid_sums c wl maxSum
  ∧ (maxSum = 0 ∨ 2 ≤ base c ≤ 36).
Proof.
  rewrite FindValidSums_cases. intros Hts.
  destruct (decide (maxSum < 0 ∨ maxAlloc < sizeof_Word * maxSum)); [done|].
  split; [lia|]. split; [lia|].
  destruct (decide (maxSum = 0)) as [->|].
  { injection Hts as <-. split; [done|by left]. }
  destruct (decide (2 ≤ base c ≤ 36)); [|done].
  injection Hts as <-. split; [done|by right].
Qed.



(** C6.  Every triplet that either variant of [FindValidSums] emits has
    addends whose values, read from their numerals in the cipher's base, are
    both strictly below [maxSum / 2] (the division truncating toward zero),
    the first not above the second, and a sum, equal to the value of the
    third numeral, strictly below [maxSum]: no pair whose larger addend
    reaches [maxSum / 2] is emitted.  [maxSum] is a Go [int]. *)
Theorem C6_emitted_below_bounds (c : Cipher) (wl : WordList) (maxSum : Z)
    (ts : list Triplet) (w1 w2 w3 : Word) :
  - 2 ^ 63 ≤ maxSum < 2 ^ 63 →
  Callback.FindValidSums record_triplet c maxSum wl [] = Ok ts
    ∨ Slice.FindValidSums c maxSum wl = Ok ts →
  (w1, w2, w3) ∈ ts →
  ∃ va vb vs,
    ParseInt (numbers w1) (base c) = Ok va
    ∧ ParseInt (numbers w2) (base c) = Ok vb
    ∧ ParseInt (numbers w3) (base c) = Ok vs
    ∧ 0 ≤ va ∧ va ≤ vb
    ∧ va < maxSum ÷ 2 ∧ vb < maxSum ÷ 2
    ∧ ¬ (maxSum ÷ 2 ≤ Z.max va vb)
    ∧ vs = va + vb ∧ vs < maxSum.
Proof.
  intros Hint Hts Hin.
  assert (Slice.FindValidSums c maxSum wl = Ok ts) as Hslice.
  { destruct Hts as [Hts|Hts]; [|done]. by rewrite Callback_record_is_Slice in Hts. }
  destruct (FindValidSums_Ok c wl maxSum ts Hslice) as (Hmax & _ & -> & Hb).
  apply elem_of_valid_sums in Hin as (i & j & Hi & Hij & Hj & Hsum & _ & _ & _ & Heq); [|lia].
  destruct Hb as [->|Hb]; [lia|].
  injection Heq as -> -> ->.
  exists i, j, (i + j).
  destruct (word_value c i Hb) as [-> _]; [lia|].
  destruct (word_value c j Hb) as [-> _]; [lia|].
  destruct (word_value c (i + j) Hb) as [-> _]; [lia|].
  repeat split; lia.
Qed.

Lemma C6_emitted_below_bounds_witness :
  ∃ va vb vs,
    ParseInt "1" 2 = Ok va ∧ ParseInt "1" 2 = Ok vb ∧ ParseInt "10" 2 = Ok vs
    ∧ 0 ≤ va ∧ va ≤ vb ∧ va < 8 ÷ 2 ∧ vb < 8 ÷ 2 ∧ ¬ (8 ÷ 2 ≤ Z.max va vb)
    ∧ vs = va + vb ∧ vs < 8.
Proof.
  apply (C6_emitted_below_bounds
           cipher_ab
           {["a"; "ab"]} 8
           [({| numbers := "1"; letters := "a" |}, {| numbers := "1"; letters := "a" |},
             {| numbers := "10"; letters := "ab" |})]
           {| numbers := "1"; letters := "a" |} {| numbers := "1"; letters := "a" |}
           {| numbers := "10"; letters := "ab" |}).
  - lia.
  - left. vm_compute. reflexivity.
  - left.
Defined.

(** The policy of C6 at work, with the key "ab" and [maxSum = 8]: 1 ("a"),
    4 ("abb") and 5 ("aba") are valid and [1 + 4 = 5 < 8], but the pair is
    not emitted, 4 being no less than [8 / 2]. *)
Lemma bound_policy_example :
  ∃ c, CipherFromKey "ab" false = Ok c
       ∧ valid c {["a"; "abb"; "aba"]} 1 = true
       ∧ valid c {["a"; "abb"; "aba"]} 4 = true
       ∧ valid c {["a"; "abb"; "aba"]} 5 = true
       ∧ Slice.FindValidSums c 8 {["a"; "abb"; "aba"]} = Ok [].
Proof. eexists. split; [by vm_compute|]. by vm_compute. Qed.

(* ===================================================================== *)
(** ** [FromLetters] and [FromNumbers]: symbols without an entry          *)
(* ===================================================================== *)

Lemma encoded_zero (rs : list Z) :
  0 ∈ rs → "000"%char ∈ list_ascii_of_string (string_of_runes rs).
Proof.
  intros Hin. unfold string_of_runes, string_of_bytes.
  rewrite list_ascii_of_string_of_list_ascii.
  apply (list_elem_of_fmap_2' _ _ 0); [|done].
  apply list_elem_of_bind. exists 0. split; [|done]. by left.
Qed.

(** C5, as the code has it.  [FromLetters] and [FromNumbers] have no error
    to return: they translate every string.  A letter without an entry in
    [letterToNumber] becomes the zero rune at its place in the translation,
    and so does a value symbol without an entry in [numberToLetter]; the
    string that is returned then holds the byte 0. *)
Theorem C5_unmapped_symbol_becomes_zero (c : Cipher) (s : string) (i : nat) (r : Z) :
  range_string s !! i = Some r →
  (letterToNumber c !! r = None →
     FromLetters_runes c s !! i = Some 0
     ∧ length (FromLetters_runes c s) = length (range_string s)
     ∧ "000"%char ∈ list_ascii_of_string (FromLetters c s))
  ∧ (numberToLetter c !! r = None →
     FromNumbers_runes c s !! i = Some 0
     ∧ length (FromNumbers_runes c s) = length (range_string s)
     ∧ "000"%char ∈ list_ascii_of_string (FromNumbers c s)).
Proof.
  intros Hr. unfold FromLetters, FromNumbers, FromLetters_runes, FromNumbers_runes.
  rewrite !foldl_snoc_fmap, !app_nil_l. split; intros Hnone.
  - assert (((λ l, default 0 (letterToNumber c !! l)) <$> range_string s) !! i = Some 0) as Hi.
    { by rewrite list_lookup_fmap, Hr; simpl; rewrite Hnone. }
    split; [done|]. split; [by rewrite length_fmap|].
    apply encoded_zero. by eapply list_elem_of_lookup_2.
  - assert (((λ n, default 0 (numberToLetter c !! n)) <$> range_string s) !! i = Some 0) as Hi.
    { by rewrite list_lookup_fmap, Hr; simpl; rewrite Hnone. }
    split; [done|]. split; [by rewrite length_fmap|].
    apply encoded_zero. by eapply list_elem_of_lookup_2.
Qed.

Lemma C5_unmapped_symbol_becomes_zero_witness :
  (FromLetters_runes cipher_ab "az" !! 1%nat = Some 0
   ∧ length (FromLetters_runes cipher_ab "az") = length (range_string "az")
   ∧ "000"%char ∈ list_ascii_of_string (FromLetters cipher_ab "az"))
  ∧ (FromNumbers_runes cipher_ab "17" !! 1%nat = Some 0
     ∧ length (FromNumbers_runes cipher_ab "17") = length (range_string "17")
     ∧ "000"%char ∈ list_ascii_of_string (FromNumbers cipher_ab "17")).
Proof.
  split.
  - apply (C5_unmapped_symbol_becomes_zero cipher_ab "az" 1 122).
    + reflexivity.
    + vm_compute. reflexivity.
  - apply (C5_unmapped_symbol_becomes_zero cipher_ab "17" 1 55).
    + reflexivity.
    + vm_compute. reflexivity.
Defined.

(* ===================================================================== *)
(** ** Ciphers of keys of single-byte letters                             *)
(* ===================================================================== *)

(** On bytes below 128, [range] yields the bytes themselves. *)
Lemma range_bytes_ascii (p : list Z) :
  Forall (λ c, 0 ≤ c < 128) p → range_bytes 0 p = p.
Proof.
  induction 1 as [|c p Hc _ IH]; [done|].
  cbn [range_bytes DecodeRune]. destruct (Z.ltb_spec c 128); [|lia].
  simpl. by rewrite IH.
Qed.

Lemma range_string_of_bytes (p : list Z) :
  Forall (λ c, 0 ≤ c < 128) p → range_string (string_of_bytes p) = p.
Proof.
  intros Hp. unfold range_string. rewrite bytes_of_string_of_bytes.
  - by apply range_bytes_ascii.
  - eapply Forall_impl; [exact Hp|]. simpl. lia.
Qed.

Lemma string_of_runes_ascii (rs : list Z) :
  Forall (λ r, 0 ≤ r < 128) rs → string_of_runes rs = string_of_bytes rs.
Proof.
  intros Hrs. unfold string_of_runes. f_equal.
  induction Hrs as [|r rs Hr _ IH]; [done|].
  rewrite bind_cons, IH. unfold encoderune.
  destruct (Z.leb_spec 0 r); [|lia]. by destruct (Z.leb_spec r 127); [|lia].
Qed.

(** The numeral of an integer that is not negative: digits below the
    base, and no sign. *)
Lemma FormatInt_digits (b v : Z) :
  2 ≤ b ≤ 36 → 0 ≤ v < 2 ^ 63 →
  ∃ ds, FormatInt v b = Ok (string_of_bytes (digit <$> ds))
        ∧ Forall (λ d, 0 ≤ d < b) ds.
Proof.
  intros Hb Hv. unfold FormatInt.
  change (Z.of_nat (String.length digits)) with 36.
  destruct (Z.ltb_spec b 2); [lia|]. destruct (Z.ltb_spec 36 b); [lia|]. simpl orb. cbv iota.
  destruct (Z.ltb_spec v 0); [lia|].
  change (2 ^ 63) with 9223372036854775808 in Hv.
  assert (uint64 v = v) as ->.
  { unfold uint64. change (2 ^ 64) with 18446744073709551616. apply Z.mod_small. lia. }
  destruct (formatBits_loop_spec b Hb 65 64 v []) as (i' & ds & Hloop & _ & _ & Hds & _).
  { change (2 ^ Z.of_nat 64) with 18446744073709551616. lia. }
  { lia. }
  rewrite Hloop. simpl. rewrite app_nil_r. by exists ds.
Qed.

(** The value symbols [MakeNumbers] hands out are the digits of the base. *)
Lemma digit_in_MakeNumbers (l d : Z) (leading0 : bool) (numbers : list Z) :
  MakeNumbers l leading0 = Ok numbers → 0 ≤ d < l → digit d ∈ numbers.
Proof.
  intros Hn Hd. assert (l < 36) as Hl.
  { unfold MakeNumbers in Hn. destruct (Z.leb_spec 36 l); [done|lia]. }
  rewrite MakeNumbers_Ok in Hn by lia. injection Hn as <-.
  destruct (digit_facts d) as (_ & _ & _ & _ & _ & ->); [lia|].
  assert (d ≠ 0 → value_symbol d ∈ value_symbols l) as Hin.
  { intros Hd0. apply list_elem_of_fmap_2, elem_of_seqZ. lia. }
  destruct (decide (d = 0)) as [->|Hd0].
  - destruct leading0; [by left|]. apply elem_of_app. right. by left.
  - destruct leading0; [right; auto|]. apply elem_of_app. left. auto.
Qed.

Lemma MakeNumbers_NoDup (l : Z) (leading0 : bool) (numbers : list Z) :
  - 2 ^ 63 < l →
  MakeNumbers l leading0 = Ok numbers → NoDup numbers ∧ Forall (λ n, 0 ≤ n < 128) numbers.
Proof.
  intros Hint Hn.
  assert (Forall (λ l, (NoDup (chr "0" :: value_symbols l)
                        ∧ Forall (λ n, 0 ≤ n < 128) (chr "0" :: value_symbols l))
                       ∧ (NoDup (value_symbols l ++ [chr "0"])
                          ∧ Forall (λ n, 0 ≤ n < 128) (value_symbols l ++ [chr "0"])))
                 (seqZ 1 35)) as Hall.
  { apply (bool_decide_unpack _). by vm_compute. }
  rewrite Forall_seqZ in Hall.
  destruct (decide (1 ≤ l < 36)) as [Hl|Hl].
  - rewrite MakeNumbers_Ok in Hn by done. injection Hn as <-.
    destruct (Hall l) as [H1 H2]; [lia|]. by destruct leading0.
  - destruct (Z.leb_spec 36 l) as [Hlong|Hshort].
    { unfold MakeNumbers in Hn. by destruct (Z.leb_spec 36 l); [|lia]. }
    rewrite MakeNumbers_no_wrap in Hn by lia. cbv zeta in Hn.
    destruct (Z.leb_spec (l - 1) 8); [|lia].
    unfold range in Hn. rewrite seqZ_nil in Hn by lia. simpl in Hn.
    destruct leading0; injection Hn as <-; (split; [apply NoDup_singleton|]);
      by apply Forall_singleton.
Qed.

Lemma length_bytes_of_string (s : string) : Z.of_nat (length (bytes_of_string s)) = len s.
Proof.
  unfold bytes_of_string, len. rewrite length_fmap. f_equal.
  induction s as [|a s IH]; simpl; [done|]. by rewrite IH.
Qed.

Lemma MakeNumbers_length (l : Z) (leading0 : bool) (numbers : list Z) :
  1 ≤ l → MakeNumbers l leading0 = Ok numbers → Z.of_nat (length numbers) = l.
Proof.
  intros Hl Hn. assert (l < 36) as Hl'.
  { unfold MakeNumbers in Hn. destruct (Z.leb_spec 36 l); [done|lia]. }
  rewrite MakeNumbers_Ok in Hn by lia. injection Hn as <-.
  pose proof (length_value_symbols l Hl).
  destruct leading0; [simpl|rewrite length_app; simpl]; lia.
Qed.

Section FillMaps.
Context (letters numbers : list Z).

(** The last loop of [CipherFromKey] runs through when both slices are
    long enough. *)
Lemma fill_maps_total (n : nat) :
  (n ≤ length letters)%nat → (n ≤ length numbers)%nat →
  ∃ maps, for_each (seqZ 0 (Z.of_nat n)) (fill_maps letters numbers) (∅, ∅) = Ok maps.
Proof.
  intros Hl Hn. induction n as [|n IH]; [by eexists|].
  destruct IH as ([l2n n2l] & Hloop); [lia|lia|].
  destruct (lookup_lt_is_Some_2 letters n) as [l Hlet]; [lia|].
  destruct (lookup_lt_is_Some_2 numbers n) as [num Hnum]; [lia|].
  eexists. rewrite seqZ_S, Z.add_0_l, for_each_app, Hloop. simpl.
  rewrite (index_lookup letters _ l), (index_lookup numbers _ num)
    by (lia || by rewrite Nat2Z.id).
  done.
Qed.

(** When it has run through [n] positions, both slices have that many
    elements, every number met has an entry, and, both slices being free of
    repetitions, the two maps are inverse of each other there. *)
Lemma fill_maps_Ok (n : nat) (maps : gmap Z Z * gmap Z Z) :
  for_each (seqZ 0 (Z.of_nat n)) (fill_maps letters numbers) (∅, ∅) = Ok maps →
  (n ≤ length letters)%nat ∧ (n ≤ length numbers)%nat
  ∧ ∀ (i : nat) l num,
      (i < n)%nat → letters !! i = Some l → numbers !! i = Some num →
      is_Some (maps.2 !! num)
      ∧ (NoDup letters → NoDup numbers → maps.1 !! l = Some num ∧ maps.2 !! num = Some l).
Proof.
  revert maps. induction n as [|n IH]; intros maps Hloop.
  { split; [lia|]. split; [lia|]. intros; lia. }
  rewrite seqZ_S, Z.add_0_l, for_each_app in Hloop.
  apply bind_Ok in Hloop as ([l2n n2l] & Hloop & Hbody).
  apply IH in Hloop as (Hl & Hn & Hmaps). simpl in Hbody, Hmaps.
  destruct (index letters (Z.of_nat n)) as [ln|?|?] eqn:Hln; simpl in Hbody; try done.
  destruct (index numbers (Z.of_nat n)) as [numn|?|?] eqn:Hnumn; simpl in Hbody; try done.
  injection Hbody as <-.
  apply index_Ok in Hln as [_ Hln]. apply index_Ok in Hnumn as [_ Hnumn].
  rewrite Nat2Z.id in Hln, Hnumn.
  pose proof (lookup_lt_Some _ _ _ Hln). pose proof (lookup_lt_Some _ _ _ Hnumn).
  split; [lia|]. split; [lia|].
  intros i l num Hi Hlet Hnum. simpl.
  destruct (decide (i = n)) as [->|Hne].
  - rewrite Hln in Hlet. rewrite Hnumn in Hnum. injection Hlet as <-. injection Hnum as <-.
    rewrite !lookup_insert_eq. eauto.
  - destruct (Hmaps i l num) as [Hsome Hinv]; [lia|done|done|]. split.
    + rewrite lookup_insert_is_Some. destruct (decide (numn = num)); auto.
    + intros Hnd1 Hnd2. destruct Hinv as [H1 H2]; [done|done|].
      assert (ln ≠ l) as Hl' by (intros ->; apply Hne, (NoDup_lookup letters i n l); done).
      assert (numn ≠ num) as Hn'
        by (intros ->; apply Hne, (NoDup_lookup numbers i n num); done).
      by rewrite !lookup_insert_ne.
Qed.
End FillMaps.

(** What a successful [CipherFromKey] has done. *)
Lemma CipherFromKey_Ok (k : string) (leading0 : bool) (c : Cipher) :
  CipherFromKey k leading0 = Ok c →
  ∃ numbers maps,
    len k < 36
    ∧ NoDup (range_string k)
    ∧ MakeNumbers (len k) leading0 = Ok numbers
    ∧ for_each (range (len k)) (fill_maps (range_string k) numbers) (∅, ∅) = Ok maps
    ∧ c = {| letterToNumber := maps.1; numberToLetter := maps.2; base := len k |}.
Proof.
  unfold CipherFromKey. destruct (Z.leb_spec 36 (len k)); [done|].
  rewrite (key_letters_spec _ []) by apply NoDup_nil_2. rewrite app_nil_l.
  destruct (decide (NoDup (range_string k))); [|done]. simpl.
  destruct (MakeNumbers (len k) leading0) as [numbers|?|?]; simpl; try done.
  match goal with
  | |- for_each ?xs ?body ?st ≫= _ = _ → _ => destruct (for_each xs body st) as [maps|?|?] eqn:Hmaps
  end; simpl; try done.
  intros [= <-]. by exists numbers, maps.
Qed.

(** X22.  The part of C8 the code keeps.  For every cipher constructed from a
    key of two bytes or more and every integer [v] that [FindValidSums] can
    visit, [fromInt] returns, and every symbol of the representation has an
    entry in [numberToLetter]. *)
Theorem fromInt_symbols_defined (k : string) (leading0 : bool) (c : Cipher) (v : Z) :
  CipherFromKey k leading0 = Ok c → 2 ≤ len k → 0 ≤ v < 2 ^ 63 →
  ∃ numbers,
    fromInt c v = Ok (numbers, FromNumbers c numbers)
    ∧ Forall (λ n, is_Some (numberToLetter c !! n)) (range_string numbers).
Proof.
  intros Hc Hk Hv.
  apply CipherFromKey_Ok in Hc as (nums & maps & Hlen & _ & Hnums & Hmaps & ->).
  destruct (FormatInt_digits (len k) v) as (ds & Hfmt & Hds); [lia|done|].
  exists (string_of_bytes (digit <$> ds)). split.
  { unfold fromInt, Itoa. simpl. rewrite int64_small by lia.
    destruct (Z.eqb_spec (len k) 10) as [H10|_].
    - rewrite <- H10, Hfmt. done.
    - rewrite Hfmt. done. }
  rewrite range_string_of_bytes.
  2:{ apply Forall_fmap. eapply Forall_impl; [exact Hds|]. intros d Hd. simpl in *.
      destruct (digit_facts d) as (_ & ? & _); lia. }
  apply Forall_fmap. eapply Forall_impl; [exact Hds|]. intros d Hd. simpl in *.
  pose proof (digit_in_MakeNumbers _ d _ _ Hnums Hd) as Hin.
  apply list_elem_of_lookup in Hin as [i Hi].
  pose proof (MakeNumbers_length (len k) leading0 nums ltac:(lia) Hnums) as Hnlen.
  unfold range in Hmaps. rewrite <- (Z2Nat.id (len k)) in Hmaps by lia.
  apply fill_maps_Ok in Hmaps as (Hl1 & _ & Hdom).
  pose proof (lookup_lt_Some _ _ _ Hi) as Hilt.
  destruct (lookup_lt_is_Some_2 (range_string k) i) as [l Hl]; [lia|].
  by destruct (Hdom i l (digit d)) as [Hsome _]; [lia|done|done|].
Qed.

Lemma fromInt_symbols_defined_witness :
  ∃ numbers,
    fromInt cipher_ab 5
    = Ok (numbers, FromNumbers cipher_ab
                               numbers)
    ∧ Forall (λ n, is_Some (numberToLetter cipher_ab !! n)) (range_string numbers).
Proof.
  apply (fromInt_symbols_defined "ab" false
           cipher_ab 5).
  - vm_compute. reflexivity.
  - vm_compute. discriminate.
  - lia.
Defined.

(** X23.  The part of C3 the code keeps.  For every key of less than 36
    pairwise distinct letters of one byte each (bytes below 128),
    [CipherFromKey] succeeds, the base is the length of the key, and
    decoding the encoding of a letter of the key gives the letter back. *)
Theorem CipherFromKey_single_byte_letters (k : string) (leading0 : bool) :
  len k < 36 →
  Forall (λ l, 0 ≤ l < 128) (bytes_of_string k) →
  NoDup (bytes_of_string k) →
  ∃ c, CipherFromKey k leading0 = Ok c
       ∧ base c = len k
       ∧ ∀ l, l ∈ bytes_of_string k →
           FromNumbers c (FromLetters c (string_of_bytes [l])) = string_of_bytes [l].
Proof.
  intros Hlen Hascii Hnd.
  assert (range_string k = bytes_of_string k) as Hrunes by by apply range_bytes_ascii.
  pose proof (length_bytes_of_string k) as Hbytes.
  unfold CipherFromKey. destruct (Z.leb_spec 36 (len k)); [lia|].
  rewrite (key_letters_spec _ []) by apply NoDup_nil_2. rewrite app_nil_l, Hrunes.
  destruct (decide (NoDup (bytes_of_string k))); [|done]. simpl.
  destruct (MakeNumbers (len k) leading0) as [nums|e|?] eqn:Hnums;
    [|by apply MakeNumbers_not_Err in Hnums|by destruct leading0; unfold MakeNumbers in Hnums;
       destruct (36 <=? len k)].
  simpl.
  assert (len k ≤ Z.of_nat (length nums)) as Hnlen.
  { destruct (decide (1 ≤ len k)); [by erewrite MakeNumbers_length|lia]. }
  destruct (fill_maps_total (bytes_of_string k) nums (Z.to_nat (len k)))
    as (maps & Hmaps); [lia|lia|].
  pose proof Hmaps as Hinv. apply fill_maps_Ok in Hinv as (_ & _ & Hinv).
  rewrite Z2Nat.id in Hmaps by lia. unfold range.
  exists {| letterToNumber := maps.1; numberToLetter := maps.2; base := len k |}.
  rewrite Hmaps. split; [done|]. split; [done|].
  intros l Hl. apply list_elem_of_lookup in Hl as [i Hi].
  pose proof (lookup_lt_Some _ _ _ Hi) as Hilt.
  destruct (lookup_lt_is_Some_2 nums i) as [num Hnum]; [lia|].
  destruct (MakeNumbers_NoDup (len k) leading0 nums ltac:(unfold len; lia) Hnums) as [Hnd' Hnascii].
  destruct (Hinv i l num) as [_ [Hl2n Hn2l]]; [lia|done|done|done|done|].
  assert (0 ≤ l < 128) as Hlr by by eapply Forall_lookup_1 in Hascii.
  assert (0 ≤ num < 128) as Hnr by by eapply Forall_lookup_1 in Hnascii.
  unfold FromNumbers, FromLetters, FromNumbers_runes, FromLetters_runes.
  rewrite !foldl_snoc_fmap, !app_nil_l. simpl.
  rewrite (range_string_of_bytes [l]) by by apply Forall_singleton.
  simpl. rewrite Hl2n. simpl.
  rewrite (string_of_runes_ascii [num]) by by apply Forall_singleton.
  rewrite (range_string_of_bytes [num]) by by apply Forall_singleton.
  simpl. rewrite Hn2l. simpl.
  by rewrite (string_of_runes_ascii [l]) by by apply Forall_singleton.
Qed.

Lemma CipherFromKey_single_byte_letters_witness :
  ∃ c, CipherFromKey "wanderlust" false = Ok c
       ∧ base c = 10
       ∧ ∀ l, l ∈ bytes_of_string "wanderlust" →
           FromNumbers c (FromLetters c (string_of_bytes [l])) = string_of_bytes [l].
Proof.
  apply (CipherFromKey_single_byte_letters "wanderlust" false).
  - vm_compute. reflexivity.
  - apply (bool_decide_unpack _). vm_compute. reflexivity.
  - apply (bool_decide_unpack _). vm_compute. reflexivity.
Defined.

(* ===================================================================== *)
(** ** [CipherFromKey]: every outcome                                     *)
(* ===================================================================== *)

(** [range] yields at most one rune for each byte. *)
Lemma length_range_bytes (skip : nat) (p : list Z) :
  (length (range_bytes skip p) ≤ length p)%nat.
Proof.
  revert skip. induction p as [|c p IH]; intros skip; [done|].
  cbn [range_bytes]. destruct skip as [|skip].
  - destruct (DecodeRune (c :: p)) as [r w]. simpl. specialize (IH (Nat.pred w)). lia.
  - specialize (IH skip). simpl. lia.
Qed.

Lemma length_range_string (k : string) : Z.of_nat (length (range_string k)) ≤ len k.
Proof.
  unfold range_string. pose proof (length_range_bytes 0 (bytes_of_string k)).
  pose proof (length_bytes_of_string k). lia.
Qed.

(** The last loop of [CipherFromKey] panics when there are fewer letters
    than positions to fill. *)
Lemma fill_maps_short (letters numbers : list Z) (n : Z) :
  Z.of_nat (length letters) < n → n ≤ Z.of_nat (length numbers) →
  for_each (range n) (fill_maps letters numbers) (∅, ∅) = Panic IndexOutOfRange.
Proof.
  intros Hl Hn. unfold range.
  replace n with (Z.of_nat (length letters) + (n - Z.of_nat (length letters))) by lia.
  rewrite seqZ_app, for_each_app by lia.
  destruct (fill_maps_total letters numbers (length letters)) as ([l2n n2l] & ->); [lia|lia|].
  rewrite seqZ_cons by lia. cbn [mbind outcome_bind for_each].
  assert (fill_maps letters numbers (l2n, n2l) (0 + Z.of_nat (length letters))
          = Panic IndexOutOfRange) as ->; [|done].
  unfold fill_maps, index.
  destruct (Z.leb_spec 0 (0 + Z.of_nat (length letters))); [|lia].
  by destruct (Z.ltb_spec (0 + Z.of_nat (length letters)) (Z.of_nat (length letters))); [lia|].
Qed.

(** X24.  The four outcomes of [CipherFromKey].  A key of 36 bytes or more
    gives [KeyTooLong]; a shorter key with a repeated letter gives
    [DuplicateKeyLetter]; a shorter key without repeated letter panics with
    an index out of range when it has fewer letters than bytes, that is a
    letter of several bytes, and gives a cipher whose base is the length of
    the key otherwise. *)
Theorem CipherFromKey_outcomes (k : string) (leading0 : bool) :
  (36 ≤ len k ∧ CipherFromKey k leading0 = Err KeyTooLong)
  ∨ (len k < 36 ∧ ¬ NoDup (range_string k)
     ∧ CipherFromKey k leading0 = Err DuplicateKeyLetter)
  ∨ (len k < 36 ∧ NoDup (range_string k) ∧ Z.of_nat (length (range_string k)) < len k
     ∧ CipherFromKey k leading0 = Panic IndexOutOfRange)
  ∨ (len k < 36 ∧ NoDup (range_string k) ∧ Z.of_nat (length (range_string k)) = len k
     ∧ ∃ c, CipherFromKey k leading0 = Ok c ∧ base c = len k).
Proof.
  unfold CipherFromKey. destruct (Z.leb_spec 36 (len k)); [by left|]. right.
  rewrite (key_letters_spec _ []) by apply NoDup_nil_2. rewrite app_nil_l.
  destruct (decide (NoDup (range_string k))) as [Hnd|Hdup]; [right|by left].
  simpl.
  destruct (MakeNumbers (len k) leading0) as [nums|e|?] eqn:Hnums;
    [|by apply MakeNumbers_not_Err in Hnums|by destruct leading0; unfold MakeNumbers in Hnums;
       destruct (36 <=? len k)].
  simpl.
  pose proof (length_range_string k) as Hle.
  assert (len k ≤ Z.of_nat (length nums)) as Hnlen.
  { destruct (decide (1 ≤ len k)); [by erewrite MakeNumbers_length|lia]. }
  destruct (decide (Z.of_nat (length (range_string k)) = len k)) as [Heq|Hne].
  - right. split; [done|]. split; [done|]. split; [done|].
    destruct (fill_maps_total (range_string k) nums (Z.to_nat (len k)))
      as (maps & Hmaps); [lia|lia|].
    rewrite Z2Nat.id in Hmaps by lia. unfold range. rewrite Hmaps. by eexists.
  - left. split; [done|]. split; [done|]. split; [lia|].
    by rewrite fill_maps_short by lia.
Qed.

(** C4, where the code departs from it.  A key fails without either of the
    two causes when one of its letters takes several bytes: for every key
    shorter than 36 bytes in which no letter occurs twice but which has
    fewer letters than bytes, [CipherFromKey] returns neither a cipher nor
    an error; it panics, reading [letters[i]] past the last letter. *)
Theorem C4_multibyte_key_fails_without_error (k : string) (leading0 : bool) :
  len k < 36 → NoDup (range_string k) →
  Z.of_nat (length (range_string k)) < len k →
  CipherFromKey k leading0 = Panic IndexOutOfRange
  ∧ (∀ c, CipherFromKey k leading0 ≠ Ok c)
  ∧ (∀ e, CipherFromKey k leading0 ≠ Err e).
Proof.
  intros Hlen Hnd Hfew.
  assert (CipherFromKey k leading0 = Panic IndexOutOfRange) as ->; [|done].
  unfold CipherFromKey. destruct (Z.leb_spec 36 (len k)); [lia|].
  rewrite (key_letters_spec _ []) by apply NoDup_nil_2. rewrite app_nil_l.
  destruct (decide (NoDup (range_string k))); [|done]. simpl.
  destruct (MakeNumbers (len k) leading0) as [nums|e|?] eqn:Hnums;
    [|by apply MakeNumbers_not_Err in Hnums|by destruct leading0; unfold MakeNumbers in Hnums;
       destruct (36 <=? len k)].
  simpl.
  assert (len k ≤ Z.of_nat (length nums)) as Hnlen.
  { destruct (decide (1 ≤ len k)); [by erewrite MakeNumbers_length|lia]. }
  by rewrite fill_maps_short by lia.
Qed.

Lemma C4_multibyte_key_fails_without_error_witness :
  CipherFromKey "é" false = Panic IndexOutOfRange
  ∧ (∀ c, CipherFromKey "é" false ≠ Ok c)
  ∧ (∀ e, CipherFromKey "é" false ≠ Err e).
Proof.
  apply (C4_multibyte_key_fails_without_error "é" false).
  - vm_compute. reflexivity.
  - apply (bool_decide_unpack _). vm_compute. reflexivity.
  - vm_compute. reflexivity.
Defined.

(** With a cipher of a key shorter than two bytes no search with a
    positive bound returns: [fromInt] panics on every integer. *)
Lemma FindValidSums_short_key (k : string) (leading0 : bool) (c : Cipher)
    (wl : WordList) (maxSum : Z) :
  CipherFromKey k leading0 = Ok c → len k < 2 → 0 < maxSum →
  (∀ ts, Slice.FindValidSums c maxSum wl ≠ Ok ts)
  ∧ ∀ v, fromInt c v = Panic IllegalFormatBase.
Proof.
  intros Hc Hk Hmax.
  apply CipherFromKey_Ok in Hc as (nums & maps & _ & _ & _ & _ & ->).
  split.
  - intros ts Hts. apply FindValidSums_Ok in Hts as (_ & _ & _ & [?|Hb]); [lia|].
    simpl in Hb. lia.
  - intros v. apply fromInt_Panic. simpl. lia.
Qed.

(* ===================================================================== *)
(** ** [BaseAdd] and [BaseTimes]: every outcome, and the laws of          *)
(**    arithmetic                                                          *)
(* ===================================================================== *)

Lemma int64_congr (x y : Z) : x mod 2 ^ 64 = y mod 2 ^ 64 → int64 x = int64 y.
Proof.
  intros H. unfold int64. f_equal.
  rewrite <- (Zplus_mod_idemp_l x), <- (Zplus_mod_idemp_l y). by rewrite H.
Qed.

Lemma int64_mod (x : Z) : int64 x mod 2 ^ 64 = x mod 2 ^ 64.
Proof.
  unfold int64. rewrite Zminus_mod_idemp_l.
  f_equal. lia.
Qed.

Lemma int64_add_l (x y : Z) : int64 (int64 x + y) = int64 (x + y).
Proof.
  apply int64_congr. by rewrite <- Zplus_mod_idemp_l, int64_mod, Zplus_mod_idemp_l.
Qed.

Lemma int64_mul_l (x y : Z) : int64 (int64 x * y) = int64 (x * y).
Proof.
  apply int64_congr. by rewrite <- Zmult_mod_idemp_l, int64_mod, Zmult_mod_idemp_l.
Qed.

Section ParseIntAccepts.
Context (b : Z) (Hb : 2 ≤ b ≤ 36).

Lemma ParseUint_loop_inr (cs : list Z) (n m : Z) (u : bool) :
  0 ≤ n ≤ maxUint64 →
  ParseUint_loop b (maxUint64 / b + 1) maxUint64 false cs n false = inr (m, u) →
  Forall (λ c, ∃ d, digit_value c = Some d ∧ 0 ≤ d < b) cs
  ∧ m = digits_value b n (digit_values cs) ∧ m ≤ maxUint64.
Proof.
  revert n. induction cs as [|c cs IH]; intros n Hn; cbn [ParseUint_loop].
  { intros [= <- <-]. split; [constructor|]. split; [done|lia]. }
  rewrite andb_false_r.
  destruct (digit_value c) as [d|] eqn:Hc; [|done].
  pose proof (digit_value_nonneg c d Hc) as Hd0.
  rewrite (Z.mod_small b 256) by lia.
  guard_leb b d; [done|].
  guard_leb (maxUint64 / b + 1) n; [done|].
  assert (n * b ≤ maxUint64) as Hnb.
  { etrans; [|apply (Z.mul_div_le maxUint64 b); lia]. nia. }
  assert (uint64 (n * b) = n * b) as Hu.
  { unfold uint64. apply Z.mod_small. unfold maxUint64 in *. nia. }
  rewrite !Hu.
  destruct (Z.lt_ge_cases (n * b + d) (2 ^ 64)) as [Hfit|Hwrap].
  - assert (uint64 (n * b + d) = n * b + d) as Hu1.
    { unfold uint64. apply Z.mod_small. nia. }
    rewrite !Hu1.
    guard_ltb (n * b + d) (n * b).
    guard_ltb maxUint64 (n * b + d); [unfold maxUint64 in *; lia|]. cbn [orb].
    intros Hloop. apply IH in Hloop as (Hcs & -> & Hm); [|unfold maxUint64 in *; lia].
    split; [constructor; eauto|]. split; [|done].
    unfold digit_values. by rewrite fmap_cons, Hc.
  - assert (uint64 (n * b + d) = n * b + d - 2 ^ 64) as ->.
    { unfold uint64. symmetry. apply (Z.mod_unique _ _ 1); unfold maxUint64 in *; lia. }
    by guard_ltb (n * b + d - 2 ^ 64) (n * b).
Qed.

Lemma ParseUint_inr (cs : list Z) (m : Z) :
  ParseUint cs b = inr m →
  cs ≠ [] ∧ Forall (λ c, ∃ d, digit_value c = Some d ∧ 0 ≤ d < b) cs
  ∧ m = digits_value b 0 (digit_values cs) ∧ m ≤ maxUint64.
Proof.
  unfold ParseUint. destruct cs as [|c cs]; [done|].
  guard_leb 2 b. guard_leb b 36. cbn [andb].
  destruct (Z.eqb_spec b 0); [lia|].
  destruct (ParseUint_loop _ _ _ _ _ _ _) as [e|[m' u]] eqn:Hloop; [done|].
  apply ParseUint_loop_inr in Hloop as (Hcs & -> & Hm); [|unfold maxUint64; lia].
  destruct (u && _); [done|]. intros [= <-]. done.
Qed.

(** [ParseInt] accepts the numerals of base [b] whose value is an [int64],
    and nothing else. *)
Lemma ParseInt_Ok (s : string) (v : Z) :
  ParseInt s b = Ok v ↔ int64_numeral b s ∧ numeral_value b s = v.
Proof.
  split; [|by intros [[Hnum Hv] <-]; apply ParseInt_numeral].
  unfold ParseInt, int64_numeral, is_numeral, numeral_value, numeral_parts.
  destruct (bytes_of_string s) as [|c0 s']; [done|].
  destruct (if c0 =? chr "+" then (false, s')
            else if c0 =? chr "-" then (true, s') else (false, c0 :: s')) as [neg cs].
  destruct (ParseUint cs b) as [[]|m] eqn:Hparse; try done.
  apply ParseUint_inr in Hparse as (Hne & Hcs & -> & Hmax).
  set (m := digits_value b 0 (digit_values cs)) in *.
  assert (0 ≤ m) as Hm.
  { apply (digits_value_le b 0); [lia|lia|].
    apply Forall_fmap. eapply Forall_impl; [exact Hcs|].
    intros c (d & Hc & Hd). simpl. by rewrite Hc. }
  assert (forallb (λ c, match digit_value c with Some d => d <? b | None => false end) cs
          = true) as Hall.
  { apply forallb_forall. intros c Hc%list_elem_of_In.
    eapply Forall_forall in Hcs as (d & -> & Hd); [|done]. lia. }
  simpl. rewrite Hall, bool_decide_eq_true_2 by done. spell_int64.
  destruct neg; cbn [negb andb].
  - guard_ltb 9223372036854775808 m; [done|]. intros [= <-]. split; [split; [done|lia]|].
    destruct (decide (m = 9223372036854775808)) as [->|Hmin]; [done|].
    rewrite (Z.mod_small (m + _)) by lia.
    replace (- (m + 9223372036854775808 - 9223372036854775808) + 9223372036854775808)
      with (9223372036854775808 - m) by lia.
    rewrite Z.mod_small by lia. lia.
  - guard_leb 9223372036854775808 m; [done|]. intros [= <-]. split; [split; [done|lia]|].
    rewrite Z.mod_small by lia. lia.
Qed.
End ParseIntAccepts.

Lemma ParseInt_not_Panic (s : string) (b : Z) (p : panic) : ParseInt s b ≠ Panic p.
Proof.
  unfold ParseInt. destruct (bytes_of_string s) as [|c0 s']; [done|].
  destruct (if c0 =? chr "+" then (false, s')
            else if c0 =? chr "-" then (true, s') else (false, c0 :: s')) as [neg cs].
  destruct (ParseUint cs b) as [[]|m]; try done.
  destruct (negb neg && _); [done|]. by destruct (neg && _).
Qed.

Lemma ParseInt_Err (s : string) (b : Z) :
  2 ≤ b ≤ 36 → ¬ int64_numeral b s → ∃ e, ParseInt s b = Err e.
Proof.
  intros Hb Hnot. destruct (ParseInt s b) as [v|e|p] eqn:Hp; [|by eexists|].
  - apply (ParseInt_Ok b Hb) in Hp as [Hnum _]. done.
  - by apply ParseInt_not_Panic in Hp.
Qed.

Lemma FormatInt_Ok (b v : Z) :
  2 ≤ b ≤ 36 → ∃ s, FormatInt (int64 v) b = Ok s ∧ ParseInt s b = Ok (int64 v).
Proof. intros Hb. apply ParseInt_FormatInt; [done|apply int64_range]. Qed.

Section BaseLaws.
Context (b : Z) (Hb : 2 ≤ b ≤ 36).

(** On operands [ParseInt] accepts, [BaseAdd] and [BaseTimes] format the
    sum and the product, computed in [int64]. *)
Lemma BaseAdd_parsed (n1 n2 : string) (v1 v2 : Z) :
  ParseInt n1 b = Ok v1 → ParseInt n2 b = Ok v2 →
  BaseAdd n1 n2 b = FormatInt (int64 (v1 + v2)) b.
Proof. intros H1 H2. unfold BaseAdd. by rewrite H1, H2. Qed.

Lemma BaseTimes_parsed (n1 n2 : string) (v1 v2 : Z) :
  ParseInt n1 b = Ok v1 → ParseInt n2 b = Ok v2 →
  BaseTimes n1 n2 b = FormatInt (int64 (v1 * v2)) b.
Proof. intros H1 H2. unfold BaseTimes. by rewrite H1, H2. Qed.
End BaseLaws.

(** X1.  [BaseTimes], within 64 bits.  For every base [b] with
    [2 <= b <= 36] and all numerals [n1] and [n2] of base [b] whose values,
    and the product of whose values, are signed 64-bit integers,
    [BaseTimes] returns a string that [ParseInt] reads back in base [b] as
    the exact product. *)
Theorem BaseTimes_exact_within_int64 (b : Z) (n1 n2 : string) :
  2 ≤ b ≤ 36 →
  int64_numeral b n1 → int64_numeral b n2 →
  - 2 ^ 63 ≤ numeral_value b n1 * numeral_value b n2 < 2 ^ 63 →
  ∃ s, BaseTimes n1 n2 b = Ok s
       ∧ ParseInt s b = Ok (numeral_value b n1 * numeral_value b n2).
Proof.
  intros Hb [Hn1 Hv1] [Hn2 Hv2] Hprod.
  rewrite (BaseTimes_parsed b n1 n2 (numeral_value b n1) (numeral_value b n2))
    by by apply ParseInt_numeral.
  rewrite int64_small by done. by apply ParseInt_FormatInt.
Qed.

Lemma BaseTimes_exact_within_int64_witness :
  ∃ s, BaseTimes "-12" "1011" 3 = Ok s
       ∧ ParseInt s 3 = Ok (numeral_value 3 "-12" * numeral_value 3 "1011").
Proof.
  apply (BaseTimes_exact_within_int64 3 "-12" "1011").
  - lia.
  - split; [reflexivity|]. vm_compute. split; discriminate || reflexivity.
  - split; [reflexivity|]. vm_compute. split; discriminate || reflexivity.
  - vm_compute. split; discriminate || reflexivity.
Defined.

(** X2.  The outcomes of [BaseAdd] and [BaseTimes] in a base from 2 to 36.
    Neither panics.  When both operands are numerals of the base with a
    value in [int64], both succeed, and the result reads back as the sum
    (the product) wrapped around to 64 bits.  When the first operand is not
    such a numeral, both return its parse error behind the prefix for [n1],
    whatever the second operand; when only the second is not, behind the
    prefix for [n2]. *)
Theorem BaseAdd_BaseTimes_outcomes (b : Z) (n1 n2 : string) :
  2 ≤ b ≤ 36 →
  (int64_numeral b n1 → int64_numeral b n2 →
     (∃ s, BaseAdd n1 n2 b = Ok s
           ∧ ParseInt s b = Ok (int64 (numeral_value b n1 + numeral_value b n2)))
     ∧ (∃ s, BaseTimes n1 n2 b = Ok s
             ∧ ParseInt s b = Ok (int64 (numeral_value b n1 * numeral_value b n2))))
  ∧ (¬ int64_numeral b n1 →
     ∃ e, ParseInt n1 b = Err e
          ∧ BaseAdd n1 n2 b = Err (Errorf "invalid base-11 string n1: " e)
          ∧ BaseTimes n1 n2 b = Err (Errorf "invalid base-11 string n1: " e))
  ∧ (int64_numeral b n1 → ¬ int64_numeral b n2 →
     ∃ e, ParseInt n2 b = Err e
          ∧ BaseAdd n1 n2 b = Err (Errorf "invalid base-11 string n2: " e)
          ∧ BaseTimes n1 n2 b = Err (Errorf "invalid base-11 string n2: " e)).
Proof.
  intros Hb. split; [|split].
  - intros [Hn1 Hv1] [Hn2 Hv2].
    rewrite (BaseAdd_parsed b n1 n2 (numeral_value b n1) (numeral_value b n2)),
      (BaseTimes_parsed b n1 n2 (numeral_value b n1) (numeral_value b n2))
      by by apply ParseInt_numeral.
    split; by apply FormatInt_Ok.
  - intros Hnot. destruct (ParseInt_Err n1 b Hb Hnot) as [e He].
    exists e. unfold BaseAdd, BaseTimes. by rewrite He.
  - intros [Hn1 Hv1] Hnot. destruct (ParseInt_Err n2 b Hb Hnot) as [e He].
    exists e. unfold BaseAdd, BaseTimes.
    by rewrite (ParseInt_numeral b Hb n1 Hn1 Hv1), He.
Qed.

Lemma BaseAdd_BaseTimes_outcomes_witness :
  ((∃ s, BaseAdd "7fffffffffffffff" "1" 16 = Ok s
         ∧ ParseInt s 16
           = Ok (int64 (numeral_value 16 "7fffffffffffffff" + numeral_value 16 "1")))
   ∧ (∃ s, BaseTimes "7fffffffffffffff" "1" 16 = Ok s
           ∧ ParseInt s 16
             = Ok (int64 (numeral_value 16 "7fffffffffffffff" * numeral_value 16 "1"))))
  ∧ (∃ e, ParseInt "12g" 16 = Err e
          ∧ BaseAdd "12g" "zz" 16 = Err (Errorf "invalid base-11 string n1: " e)
          ∧ BaseTimes "12g" "zz" 16 = Err (Errorf "invalid base-11 string n1: " e))
  ∧ (∃ e, ParseInt "" 16 = Err e
          ∧ BaseAdd "1" "" 16 = Err (Errorf "invalid base-11 string n2: " e)
          ∧ BaseTimes "1" "" 16 = Err (Errorf "invalid base-11 string n2: " e)).
Proof.
  split; [|split].
  - apply (BaseAdd_BaseTimes_outcomes 16 "7fffffffffffffff" "1").
    + lia.
    + split; [reflexivity|]. vm_compute. split; discriminate || reflexivity.
    + split; [reflexivity|]. vm_compute. split; discriminate || reflexivity.
  - apply (BaseAdd_BaseTimes_outcomes 16 "12g" "zz").
    + lia.
    + intros [Hnum _]. vm_compute in Hnum. discriminate.
  - apply (BaseAdd_BaseTimes_outcomes 16 "1" "").
    + lia.
    + split; [reflexivity|]. vm_compute. split; discriminate || reflexivity.
    + intros [Hnum _]. vm_compute in Hnum. discriminate.
Defined.

(** X3.  [BaseAdd] is commutative and associative on the numerals
    [ParseInt] accepts, overflow included: feeding the result of one call
    to the next gives the same string whichever way the three operands are
    grouped. *)
Theorem BaseAdd_comm_assoc (b : Z) (n1 n2 n3 : string) :
  2 ≤ b ≤ 36 →
  int64_numeral b n1 → int64_numeral b n2 → int64_numeral b n3 →
  BaseAdd n1 n2 b = BaseAdd n2 n1 b
  ∧ (BaseAdd n1 n2 b ≫= λ s, BaseAdd s n3 b) = (BaseAdd n2 n3 b ≫= λ s, BaseAdd n1 s b)
  ∧ ∃ s, (BaseAdd n1 n2 b ≫= λ s, BaseAdd s n3 b) = Ok s.
Proof.
  intros Hb [Hn1 Hv1] [Hn2 Hv2] [Hn3 Hv3].
  pose proof (ParseInt_numeral b Hb n1 Hn1 Hv1) as H1.
  pose proof (ParseInt_numeral b Hb n2 Hn2 Hv2) as H2.
  pose proof (ParseInt_numeral b Hb n3 Hn3 Hv3) as H3.
  set (v1 := numeral_value b n1) in *. set (v2 := numeral_value b n2) in *.
  set (v3 := numeral_value b n3) in *.
  rewrite (BaseAdd_parsed b n1 n2 v1 v2), (BaseAdd_parsed b n2 n1 v2 v1),
    (BaseAdd_parsed b n2 n3 v2 v3) by done.
  split; [by rewrite Z.add_comm|].
  destruct (FormatInt_Ok b (v1 + v2) Hb) as (s12 & -> & Hs12).
  destruct (FormatInt_Ok b (v2 + v3) Hb) as (s23 & -> & Hs23). simpl.
  rewrite (BaseAdd_parsed b s12 n3 _ v3), (BaseAdd_parsed b n1 s23 v1 _) by done.
  rewrite int64_add_l, (Z.add_comm v1 (int64 _)), int64_add_l.
  replace (v2 + v3 + v1) with (v1 + v2 + v3) by lia.
  split; [done|]. destruct (FormatInt_Ok b (v1 + v2 + v3) Hb) as (s & -> & _). by eexists.
Qed.

Lemma BaseAdd_comm_assoc_witness :
  BaseAdd "zz" "-1" 36 = BaseAdd "-1" "zz" 36
  ∧ (BaseAdd "zz" "-1" 36 ≫= λ s, BaseAdd s "1y2p0ij32e8e7" 36)
    = (BaseAdd "-1" "1y2p0ij32e8e7" 36 ≫= λ s, BaseAdd "zz" s 36)
  ∧ ∃ s, (BaseAdd "zz" "-1" 36 ≫= λ s, BaseAdd s "1y2p0ij32e8e7" 36) = Ok s.
Proof.
  apply (BaseAdd_comm_assoc 36 "zz" "-1" "1y2p0ij32e8e7").
  - lia.
  - split; [reflexivity|]. vm_compute. split; discriminate || reflexivity.
  - split; [reflexivity|]. vm_compute. split; discriminate || reflexivity.
  - split; [reflexivity|]. vm_compute. split; discriminate || reflexivity.
Defined.

(** X4.  [BaseTimes] is commutative and associative on the numerals
    [ParseInt] accepts, and distributes over [BaseAdd], overflow
    included. *)
Theorem BaseTimes_comm_assoc_distr (b : Z) (n1 n2 n3 : string) :
  2 ≤ b ≤ 36 →
  int64_numeral b n1 → int64_numeral b n2 → int64_numeral b n3 →
  BaseTimes n1 n2 b = BaseTimes n2 n1 b
  ∧ (BaseTimes n1 n2 b ≫= λ s, BaseTimes s n3 b)
    = (BaseTimes n2 n3 b ≫= λ s, BaseTimes n1 s b)
  ∧ (BaseAdd n2 n3 b ≫= λ s, BaseTimes n1 s b)
    = (BaseTimes n1 n2 b ≫= λ p, BaseTimes n1 n3 b ≫= λ q, BaseAdd p q b)
  ∧ ∃ s, (BaseAdd n2 n3 b ≫= λ s, BaseTimes n1 s b) = Ok s.
Proof.
  intros Hb [Hn1 Hv1] [Hn2 Hv2] [Hn3 Hv3].
  pose proof (ParseInt_numeral b Hb n1 Hn1 Hv1) as H1.
  pose proof (ParseInt_numeral b Hb n2 Hn2 Hv2) as H2.
  pose proof (ParseInt_numeral b Hb n3 Hn3 Hv3) as H3.
  set (v1 := numeral_value b n1) in *. set (v2 := numeral_value b n2) in *.
  set (v3 := numeral_value b n3) in *.
  rewrite (BaseTimes_parsed b n1 n2 v1 v2), (BaseTimes_parsed b n2 n1 v2 v1),
    (BaseTimes_parsed b n2 n3 v2 v3), (BaseTimes_parsed b n1 n3 v1 v3),
    (BaseAdd_parsed b n2 n3 v2 v3) by done.
  split; [by rewrite Z.mul_comm|].
  destruct (FormatInt_Ok b (v1 * v2) Hb) as (p12 & -> & Hp12).
  destruct (FormatInt_Ok b (v2 * v3) Hb) as (p23 & -> & Hp23).
  destruct (FormatInt_Ok b (v1 * v3) Hb) as (p13 & -> & Hp13).
  destruct (FormatInt_Ok b (v2 + v3) Hb) as (s23 & -> & Hs23). simpl.
  rewrite (BaseTimes_parsed b p12 n3 _ v3), (BaseTimes_parsed b n1 p23 v1 _),
    (BaseTimes_parsed b n1 s23 v1 _), (BaseAdd_parsed b p12 p13 _ _) by done.
  rewrite int64_mul_l, !(Z.mul_comm v1 (int64 _)), !int64_mul_l.
  rewrite int64_add_l, (Z.add_comm (v1 * v2) (int64 _)), int64_add_l.
  split; [f_equal; f_equal; lia|]. split; [f_equal; f_equal; lia|].
  destruct (FormatInt_Ok b ((v2 + v3) * v1) Hb) as (s & -> & _). by eexists.
Qed.

Lemma BaseTimes_comm_assoc_distr_witness :
  BaseTimes "12" "-7" 10 = BaseTimes "-7" "12" 10
  ∧ (BaseTimes "12" "-7" 10 ≫= λ s, BaseTimes s "4611686018427387904" 10)
    = (BaseTimes "-7" "4611686018427387904" 10 ≫= λ s, BaseTimes "12" s 10)
  ∧ (BaseAdd "-7" "4611686018427387904" 10 ≫= λ s, BaseTimes "12" s 10)
    = (BaseTimes "12" "-7" 10
       ≫= λ p, BaseTimes "12" "4611686018427387904" 10 ≫= λ q, BaseAdd p q 10)
  ∧ ∃ s, (BaseAdd "-7" "4611686018427387904" 10 ≫= λ s, BaseTimes "12" s 10) = Ok s.
Proof.
  apply (BaseTimes_comm_assoc_distr 10 "12" "-7" "4611686018427387904").
  - lia.
  - split; [reflexivity|]. vm_compute. split; discriminate || reflexivity.
  - split; [reflexivity|]. vm_compute. split; discriminate || reflexivity.
  - split; [reflexivity|]. vm_compute. split; discriminate || reflexivity.
Defined.

Lemma ParseInt_illegal_base (s : string) (b : Z) :
  ¬ (2 ≤ b ≤ 36) → b ≠ 0 → ∃ e, ParseInt s b = Err e.
Proof.
  intros Hb H0. unfold ParseInt.
  destruct (bytes_of_string s) as [|c0 s']; [by eexists|].
  destruct (if c0 =? chr "+" then (false, s')
            else if c0 =? chr "-" then (true, s') else (false, c0 :: s')) as [neg cs].
  assert (∃ e, ParseUint cs b = inl e) as [e ->].
  { unfold ParseUint. destruct cs as [|c cs]; [by eexists|].
    destruct (Z.leb_spec 2 b), (Z.leb_spec b 36); cbn [andb]; try lia;
      (destruct (Z.eqb_spec b 0); [done|by eexists]). }
  destruct e; by eexists.
Qed.

(** X5.  Outside the bases 2 to 36 [BaseAdd] and [BaseTimes] give no
    result.  With any base other than 0 both return an error, whatever the
    operands.  With base 0, where [ParseInt] takes the base from the prefix
    of the numeral, operands that parse make both panic in
    [strconv.FormatInt]. *)
Theorem BaseAdd_BaseTimes_illegal_base (b : Z) (n1 n2 : string) :
  ¬ (2 ≤ b ≤ 36) →
  (b ≠ 0 → ∃ e1 e2, BaseAdd n1 n2 b = Err e1 ∧ BaseTimes n1 n2 b = Err e2)
  ∧ (b = 0 → ∀ v1 v2, ParseInt n1 0 = Ok v1 → ParseInt n2 0 = Ok v2 →
       BaseAdd n1 n2 0 = Panic IllegalFormatBase
       ∧ BaseTimes n1 n2 0 = Panic IllegalFormatBase).
Proof.
  intros Hb. split.
  - intros H0. destruct (ParseInt_illegal_base n1 b Hb H0) as [e He].
    unfold BaseAdd, BaseTimes. rewrite He. by eexists _, _.
  - intros _ v1 v2 H1 H2. unfold BaseAdd, BaseTimes. by rewrite H1, H2.
Qed.

Lemma BaseAdd_BaseTimes_illegal_base_witness :
  (∃ e1 e2, BaseAdd "10" "1" 37 = Err e1 ∧ BaseTimes "10" "1" 37 = Err e2)
  ∧ BaseAdd "0x10" "0b1" 0 = Panic IllegalFormatBase
  ∧ BaseTimes "0x10" "0b1" 0 = Panic IllegalFormatBase.
Proof.
  split.
  - apply (BaseAdd_BaseTimes_illegal_base 37 "10" "1"); lia.
  - apply (BaseAdd_BaseTimes_illegal_base 0 "0x10" "0b1" ltac:(lia)) with (v1 := 16) (v2 := 1);
      reflexivity.
Defined.

(* ===================================================================== *)
(** ** The cipher [CipherFromKey] builds                                  *)
(* ===================================================================== *)

Lemma MakeNumbers_lookup (l : Z) (leading0 : bool) (numbers : list Z) (i : nat) :
  1 ≤ l → MakeNumbers l leading0 = Ok numbers → Z.of_nat i < l →
  numbers !! i = Some (assigned_symbol l leading0 (Z.of_nat i)).
Proof.
  intros Hl Hn Hi. assert (l < 36) as Hl'.
  { unfold MakeNumbers in Hn. destruct (Z.leb_spec 36 l); [done|lia]. }
  rewrite MakeNumbers_Ok in Hn by lia. injection Hn as <-.
  assert (∀ j : nat, Z.of_nat j < l - 1 →
            value_symbols l !! j = Some (value_symbol (Z.of_nat j + 1))) as Hsym.
  { intros j Hj. unfold value_symbols.
    rewrite list_lookup_fmap, lookup_seqZ_lt by lia. simpl. do 2 f_equal. lia. }
  pose proof (length_value_symbols l Hl) as Hlen.
  unfold assigned_symbol. destruct leading0.
  - destruct i as [|i]; [done|]. simpl. rewrite Hsym by lia. do 2 f_equal. lia.
  - destruct (Z.eqb_spec (Z.of_nat i) (l - 1)) as [Heq|Hne].
    + rewrite lookup_app_r by lia.
      by replace (i - length (value_symbols l))%nat with 0%nat by lia.
    + rewrite lookup_app_l by lia. apply Hsym. lia.
Qed.

Section FillMapsEntries.
Context (letters numbers : list Z).

(** Every entry of the two maps was put there for some position. *)
Lemma fill_maps_entries (n : nat) (maps : gmap Z Z * gmap Z Z) :
  for_each (seqZ 0 (Z.of_nat n)) (fill_maps letters numbers) (∅, ∅) = Ok maps →
  (∀ l num, maps.1 !! l = Some num → ∃ i, (i < n)%nat ∧ letters !! i = Some l)
  ∧ (∀ num l, maps.2 !! num = Some l → ∃ i, (i < n)%nat ∧ numbers !! i = Some num).
Proof.
  revert maps. induction n as [|n IH]; intros maps Hloop.
  { injection Hloop as <-. split; intros ? ? H; simpl in H; by rewrite lookup_empty in H. }
  rewrite seqZ_S, Z.add_0_l, for_each_app in Hloop.
  apply bind_Ok in Hloop as ([l2n n2l] & Hloop & Hbody).
  apply IH in Hloop as (H1 & H2). simpl in Hbody, H1, H2.
  destruct (index letters (Z.of_nat n)) as [ln|?|?] eqn:Hln; simpl in Hbody; try done.
  destruct (index numbers (Z.of_nat n)) as [numn|?|?] eqn:Hnumn; simpl in Hbody; try done.
  injection Hbody as <-.
  apply index_Ok in Hln as [_ Hln]. apply index_Ok in Hnumn as [_ Hnumn].
  rewrite Nat2Z.id in Hln, Hnumn. simpl. split.
  - intros l num. rewrite lookup_insert. case_decide as Heq.
    + subst. intros _. exists n. split; [lia|done].
    + intros (i & Hi & Hl)%H1. exists i. split; [lia|done].
  - intros num l. rewrite lookup_insert. case_decide as Heq.
    + subst. intros _. exists n. split; [lia|done].
    + intros (i & Hi & Hl)%H2. exists i. split; [lia|done].
Qed.
End FillMapsEntries.

(** The entries of a cipher, position by position: the letter at position
    [i] of the key and the symbol assigned to that position stand for each
    other, and the cipher has no other entry. *)
Lemma CipherFromKey_entries (k : string) (leading0 : bool) (c : Cipher) :
  CipherFromKey k leading0 = Ok c →
  Z.of_nat (length (range_string k)) = len k
  ∧ NoDup (range_string k)
  ∧ base c = len k
  ∧ (∀ (i : nat) l, range_string k !! i = Some l →
       letterToNumber c !! l = Some (assigned_symbol (len k) leading0 (Z.of_nat i))
       ∧ numberToLetter c !! assigned_symbol (len k) leading0 (Z.of_nat i) = Some l)
  ∧ (∀ l num, letterToNumber c !! l = Some num →
       ∃ i : nat, range_string k !! i = Some l
                  ∧ num = assigned_symbol (len k) leading0 (Z.of_nat i))
  ∧ (∀ num l, numberToLetter c !! num = Some l →
       ∃ i : nat, range_string k !! i = Some l
                  ∧ num = assigned_symbol (len k) leading0 (Z.of_nat i)).
Proof.
  intros Hc. apply CipherFromKey_Ok in Hc as (nums & maps & Hlen & Hnd & Hnums & Hmaps & ->).
  pose proof (length_range_string k) as Hle.
  unfold range in Hmaps.
  assert (0 ≤ len k) as Hk0 by (unfold len; lia).
  rewrite <- (Z2Nat.id (len k)) in Hmaps by done.
  pose proof (fill_maps_Ok _ _ _ _ Hmaps) as (Hl1 & Hl2 & Hinv).
  pose proof (fill_maps_entries _ _ _ _ Hmaps) as (He1 & He2).
  destruct (MakeNumbers_NoDup (len k) leading0 nums ltac:(unfold len; lia) Hnums) as [Hnd' _].
  assert (∀ i : nat, Z.of_nat i < len k →
            nums !! i = Some (assigned_symbol (len k) leading0 (Z.of_nat i))) as Hnum.
  { intros i Hi. apply (MakeNumbers_lookup (len k) leading0); [lia|done|done]. }
  simpl. split; [lia|]. split; [done|]. split; [done|]. split; [|split].
  - intros i l Hl. pose proof (lookup_lt_Some _ _ _ Hl) as Hi.
    by destruct (Hinv i l (assigned_symbol (len k) leading0 (Z.of_nat i)))
      as [_ Hboth]; [lia|done|apply Hnum; lia|apply Hboth].
  - intros l num Hlook. destruct (He1 l num Hlook) as (i & Hi & Hl).
    exists i. split; [done|].
    destruct (Hinv i l (assigned_symbol (len k) leading0 (Z.of_nat i)))
      as [_ Hboth]; [lia|done|apply Hnum; lia|].
    destruct Hboth as [Hb1 _]; [done|done|]. congruence.
  - intros num l Hlook. destruct (He2 num l Hlook) as (i & Hi & Hn).
    destruct (lookup_lt_is_Some_2 (range_string k) i) as [l' Hl']; [lia|].
    destruct (Hinv i l' num) as [_ Hboth]; [lia|done|done|].
    destruct Hboth as [_ Hb2]; [done|done|].
    exists i. rewrite Hnum in Hn by lia. split; [congruence|congruence].
Qed.

Lemma assigned_symbol_digit (l : Z) (leading0 : bool) (n : Z) :
  l < 36 →
  (∃ i, 0 ≤ i < l ∧ n = assigned_symbol l leading0 i) ↔ (∃ d, 0 ≤ d < l ∧ n = digit d).
Proof.
  intros Hl. unfold assigned_symbol. split.
  - intros (i & Hi & ->). destruct leading0.
    + exists i. split; [done|]. by destruct (digit_facts i) as (_ & _ & _ & _ & _ & ->); [lia|].
    + destruct (Z.eqb_spec i (l - 1)).
      * exists 0. split; [lia|done].
      * exists (i + 1). split; [lia|].
        by destruct (digit_facts (i + 1)) as (_ & _ & _ & _ & _ & ->); [lia|].
  - intros (d & Hd & ->).
    destruct (digit_facts d) as (_ & _ & _ & _ & _ & ->); [lia|]. destruct leading0.
    + by exists d.
    + destruct (decide (d = 0)) as [->|Hd0].
      * exists (l - 1). split; [lia|]. by rewrite Z.eqb_refl.
      * exists (d - 1). split; [lia|]. destruct (Z.eqb_spec (d - 1) (l - 1)); [lia|].
        f_equal. lia.
Qed.

(** X6.  The cipher is a bijection.  In every cipher [CipherFromKey]
    returns, [letterToNumber] and [numberToLetter] are inverse of each
    other; the letters with an entry are the letters of the key, and the
    value symbols with an entry are the digits of the cipher's base, as
    [strconv] writes them. *)
Theorem CipherFromKey_bijection (k : string) (leading0 : bool) (c : Cipher) :
  CipherFromKey k leading0 = Ok c →
  (∀ l n, letterToNumber c !! l = Some n ↔ numberToLetter c !! n = Some l)
  ∧ (∀ l, is_Some (letterToNumber c !! l) ↔ l ∈ range_string k)
  ∧ (∀ n, is_Some (numberToLetter c !! n) ↔ ∃ d, 0 ≤ d < base c ∧ n = digit d).
Proof.
  intros Hc. pose proof (CipherFromKey_Ok _ _ _ Hc) as (_ & _ & Hlt & _).
  apply CipherFromKey_entries in Hc as (Hlen & Hnd & Hbase & Hent & Hl2n & Hn2l).
  split; [|split].
  - intros l n. split.
    + intros (i & Hi & ->)%Hl2n. by apply Hent.
    + intros (i & Hi & ->)%Hn2l. by apply Hent.
  - intros l. split.
    + intros [n (i & Hi & _)%Hl2n]. by eapply list_elem_of_lookup_2.
    + intros [i Hi]%list_elem_of_lookup. apply Hent in Hi as [Hi _]. by eexists.
  - intros n. rewrite Hbase, <- (assigned_symbol_digit (len k) leading0 n Hlt). split.
    + intros [l (i & Hi & ->)%Hn2l]. exists (Z.of_nat i). split; [|done].
      apply lookup_lt_Some in Hi. lia.
    + intros (i & Hi & ->).
      destruct (lookup_lt_is_Some_2 (range_string k) (Z.to_nat i)) as [l Hl]; [lia|].
      apply Hent in Hl as [_ Hl]. rewrite Z2Nat.id in Hl by lia. by eexists.
Qed.

Lemma CipherFromKey_bijection_witness :
  (∀ l n, letterToNumber cipher_ab !! l = Some n ↔ numberToLetter cipher_ab !! n = Some l)
  ∧ (∀ l, is_Some (letterToNumber cipher_ab !! l) ↔ l ∈ range_string "ab")
  ∧ (∀ n, is_Some (numberToLetter cipher_ab !! n) ↔ ∃ d, 0 ≤ d < base cipher_ab ∧ n = digit d).
Proof. apply (CipherFromKey_bijection "ab" false cipher_ab). vm_compute. reflexivity. Defined.

(** X7.  The assignment is positional, and [leading0] decides the letter
    of zero.  In every cipher [CipherFromKey] returns, the letter at
    position [i] of the key and the value symbol at position [i] of the
    sequence of [MakeNumbers] stand for each other; so ['0'] is the symbol
    of the first letter of the key with [leading0], and of its last letter
    without. *)
Theorem CipherFromKey_assignment (k : string) (leading0 : bool) (c : Cipher) :
  CipherFromKey k leading0 = Ok c →
  (∀ (i : nat) l, range_string k !! i = Some l →
     letterToNumber c !! l = Some (assigned_symbol (len k) leading0 (Z.of_nat i))
     ∧ numberToLetter c !! assigned_symbol (len k) leading0 (Z.of_nat i) = Some l)
  ∧ (∀ l, letterToNumber c !! l = Some (chr "0") ↔
          range_string k !! (if leading0 then 0%nat else Z.to_nat (len k - 1)) = Some l).
Proof.
  intros Hc. pose proof (CipherFromKey_Ok _ _ _ Hc) as (_ & _ & Hlt & _).
  apply CipherFromKey_entries in Hc as (Hlen & Hnd & Hbase & Hent & Hl2n & Hn2l).
  split; [done|]. intros l.
  assert (∀ i : nat, Z.of_nat i < len k →
            assigned_symbol (len k) leading0 (Z.of_nat i) = chr "0"
            ↔ i = (if leading0 then 0%nat else Z.to_nat (len k - 1))) as Hzero.
  { intros i Hi. unfold assigned_symbol, value_symbol. destruct leading0.
    - destruct (Z.leb_spec (Z.of_nat i) 9); change (chr "0") with 48;
        change (chr "a") with 97; lia.
    - destruct (Z.eqb_spec (Z.of_nat i) (len k - 1)); [lia|].
      destruct (Z.leb_spec (Z.of_nat i + 1) 9); change (chr "0") with 48;
        change (chr "a") with 97; lia. }
  split.
  - intros (i & Hi & Heq)%Hl2n. pose proof (lookup_lt_Some _ _ _ Hi).
    symmetry in Heq. apply Hzero in Heq; [|lia]. by rewrite <- Heq.
  - intros Hl. pose proof (lookup_lt_Some _ _ _ Hl).
    apply Hent in Hl as [Hl _]. rewrite Hl. f_equal. apply Hzero; [lia|done].
Qed.

Lemma CipherFromKey_assignment_witness :
  (∀ (i : nat) l, range_string "ab" !! i = Some l →
     letterToNumber cipher_ab !! l = Some (assigned_symbol (len "ab") false (Z.of_nat i))
     ∧ numberToLetter cipher_ab !! assigned_symbol (len "ab") false (Z.of_nat i) = Some l)
  ∧ (∀ l, letterToNumber cipher_ab !! l = Some (chr "0") ↔
          range_string "ab" !! Z.to_nat (len "ab" - 1) = Some l).
Proof. apply (CipherFromKey_assignment "ab" false cipher_ab). vm_compute. reflexivity. Defined.

Lemma string_of_bytes_of_string (s : string) : string_of_bytes (bytes_of_string s) = s.
Proof.
  unfold string_of_bytes, bytes_of_string. rewrite <- list_fmap_compose.
  rewrite <- (string_of_list_ascii_of_string s) at 2. f_equal.
  rewrite <- (list_fmap_id (list_ascii_of_string s)) at 2.
  apply list_fmap_ext. intros i a _. unfold compose, chr. simpl.
  by rewrite N2Z.id, ascii_N_embedding.
Qed.

(** Translating a string of one-byte symbols through one map and back
    through a map that inverts it on these symbols. *)
Lemma translate_there_and_back (m m' : gmap Z Z) (s : string) :
  Forall (λ x, 0 ≤ x < 128
               ∧ ∃ y, m !! x = Some y ∧ 0 ≤ y < 128 ∧ m' !! y = Some x)
         (bytes_of_string s) →
  string_of_runes
    ((λ y, default 0 (m' !! y))
       <$> range_string (string_of_runes ((λ x, default 0 (m !! x)) <$> range_string s)))
  = s.
Proof.
  intros Hs.
  assert (Forall (λ x, 0 ≤ x < 128) (bytes_of_string s)) as Hascii.
  { eapply Forall_impl; [exact Hs|]. by intros x [? _]. }
  unfold range_string at 2. rewrite range_bytes_ascii by done.
  assert (Forall (λ y, 0 ≤ y < 128) ((λ x, default 0 (m !! x)) <$> bytes_of_string s))
    as Hascii'.
  { apply Forall_fmap. eapply Forall_impl; [exact Hs|].
    intros x (_ & y & Hx & Hy & _). simpl. by rewrite Hx. }
  rewrite (string_of_runes_ascii _ Hascii'), range_string_of_bytes by done.
  rewrite <- list_fmap_compose.
  assert ((λ y, default 0 (m' !! y)) ∘ (λ x, default 0 (m !! x)) <$> bytes_of_string s
          = bytes_of_string s) as ->.
  { rewrite <- (list_fmap_id (bytes_of_string s)) at 2. apply Forall_fmap_ext.
    eapply Forall_impl; [exact Hs|]. intros x (_ & y & Hx & _ & Hy).
    unfold compose. simpl. by rewrite Hx; simpl; rewrite Hy. }
  by rewrite string_of_runes_ascii, string_of_bytes_of_string.
Qed.

Lemma assigned_symbol_ascii (l : Z) (leading0 : bool) (i : Z) :
  0 ≤ i < l → l < 36 → 0 ≤ assigned_symbol l leading0 i < 128.
Proof.
  intros Hi Hl. unfold assigned_symbol, value_symbol.
  change (chr "0") with 48; change (chr "a") with 97.
  destruct leading0; [destruct (Z.leb_spec i 9); lia|].
  destruct (Z.eqb_spec i (l - 1)); [lia|]. destruct (Z.leb_spec (i + 1) 9); lia.
Qed.

(** X8.  Words survive the round trip.  For a cipher built from a key of
    one-byte letters (bytes below 128), encoding any string made of
    letters of the key and decoding the result gives the string back. *)
Theorem FromNumbers_FromLetters (k : string) (leading0 : bool) (c : Cipher) (s : string) :
  CipherFromKey k leading0 = Ok c →
  Forall (λ l, 0 ≤ l < 128) (bytes_of_string k) →
  Forall (λ l, l ∈ bytes_of_string k) (bytes_of_string s) →
  FromNumbers c (FromLetters c s) = s.
Proof.
  intros Hc Hascii Hs.
  pose proof (CipherFromKey_Ok _ _ _ Hc) as (_ & _ & Hlt & _).
  apply CipherFromKey_entries in Hc as (Hlen & Hnd & Hbase & Hent & _).
  assert (range_string k = bytes_of_string k) as Hrunes by by apply range_bytes_ascii.
  unfold FromNumbers, FromLetters, FromNumbers_runes, FromLetters_runes.
  rewrite !foldl_snoc_fmap, !app_nil_l. apply translate_there_and_back.
  eapply Forall_impl; [exact Hs|]. intros l Hl. simpl in Hl.
  split; [by eapply Forall_forall in Hascii|].
  rewrite <- Hrunes in Hl. apply list_elem_of_lookup in Hl as [i Hi].
  pose proof (lookup_lt_Some _ _ _ Hi). apply Hent in Hi as [H1 H2].
  eexists. split; [done|]. split; [|done]. apply assigned_symbol_ascii; lia.
Qed.

Lemma FromNumbers_FromLetters_witness :
  FromNumbers cipher_ab (FromLetters cipher_ab "abba") = "abba"%string.
Proof.
  apply (FromNumbers_FromLetters "ab" false cipher_ab "abba").
  - vm_compute. reflexivity.
  - apply (bool_decide_unpack _). vm_compute. reflexivity.
  - apply (bool_decide_unpack _). vm_compute. reflexivity.
Defined.

Lemma decode_encode_numeral (k : string) (leading0 : bool) (c : Cipher) (n : string) :
  CipherFromKey k leading0 = Ok c →
  Forall (λ l, 0 ≤ l < 128) (bytes_of_string k) →
  Forall (λ x, ∃ d, 0 ≤ d < base c ∧ x = digit d) (bytes_of_string n) →
  FromLetters c (FromNumbers c n) = n.
Proof.
  intros Hc Hascii Hn.
  pose proof (CipherFromKey_Ok _ _ _ Hc) as (_ & _ & Hlt & _).
  apply CipherFromKey_entries in Hc as (Hlen & Hnd & Hbase & Hent & _).
  assert (range_string k = bytes_of_string k) as Hrunes by by apply range_bytes_ascii.
  unfold FromNumbers, FromLetters, FromNumbers_runes, FromLetters_runes.
  rewrite !foldl_snoc_fmap, !app_nil_l. apply translate_there_and_back.
  eapply Forall_impl; [exact Hn|]. intros x Hx. simpl in Hx. rewrite Hbase in Hx.
  apply (assigned_symbol_digit (len k) leading0 x Hlt) in Hx as (i & Hi & ->).
  split; [by apply assigned_symbol_ascii|].
  destruct (lookup_lt_is_Some_2 (range_string k) (Z.to_nat i)) as [l Hl]; [lia|].
  pose proof Hl as Hl'. apply Hent in Hl as [H1 H2]. rewrite Z2Nat.id in H1, H2 by lia.
  exists l. split; [done|]. split; [|done].
  rewrite Hrunes in Hl'. by eapply Forall_lookup_1 in Hascii.
Qed.


(** X9.  Numerals survive the round trip.  For a cipher built from a key
    of one-byte letters, decoding any string of digits of the cipher's base
    and encoding the result gives the string back. *)
Theorem FromLetters_FromNumbers (k : string) (leading0 : bool) (c : Cipher) (n : string) :
  CipherFromKey k leading0 = Ok c →
  Forall (λ l, 0 ≤ l < 128) (bytes_of_string k) →
  Forall (λ x, ∃ d, 0 ≤ d < base c ∧ x = digit d) (bytes_of_string n) →
  FromLetters c (FromNumbers c n) = n.
Proof. apply decode_encode_numeral. Qed.

Lemma FromLetters_FromNumbers_witness :
  FromLetters cipher_ab (FromNumbers cipher_ab "10010") = "10010"%string.
Proof.
  apply (FromLetters_FromNumbers "ab" false cipher_ab "10010").
  - vm_compute. reflexivity.
  - apply (bool_decide_unpack _). vm_compute. reflexivity.
  - repeat constructor; ((by exists 0) || (by exists 1)).
Defined.

(** X10.  The symbols of [MakeNumbers] are the digits of the base.  For
    every [l] with [1 <= l < 36] the symbols [MakeNumbers] returns are
    pairwise distinct, and they are exactly the first [l] digits of the
    alphabet [strconv.FormatInt] writes with, the digits of base [l]. *)
Theorem MakeNumbers_digit_alphabet (l : Z) (leading0 : bool) :
  1 ≤ l < 36 →
  ∃ numbers,
    MakeNumbers l leading0 = Ok numbers
    ∧ NoDup numbers
    ∧ ∀ n, n ∈ numbers ↔ ∃ d, 0 ≤ d < l ∧ n = digit d.
Proof.
  intros Hl. destruct (MakeNumbers l leading0) as [numbers|e|p] eqn:Hn;
    [|by rewrite MakeNumbers_Ok in Hn|by rewrite MakeNumbers_Ok in Hn].
  exists numbers. split; [done|]. split; [by eapply MakeNumbers_NoDup; [|done]; lia|].
  intros n. split.
  - intros [i Hi]%list_elem_of_lookup. pose proof (lookup_lt_Some _ _ _ Hi) as Hlt.
    pose proof (MakeNumbers_length l leading0 numbers ltac:(lia) Hn) as Hlen.
    rewrite (MakeNumbers_lookup l leading0 numbers i) in Hi by (done || lia).
    injection Hi as <-. apply (assigned_symbol_digit l leading0); [lia|].
    exists (Z.of_nat i). split; [lia|done].
  - intros (d & Hd & ->). by eapply digit_in_MakeNumbers.
Qed.

Lemma MakeNumbers_digit_alphabet_witness :
  ∃ numbers,
    MakeNumbers 16 false = Ok numbers
    ∧ NoDup numbers
    ∧ ∀ n, n ∈ numbers ↔ ∃ d, 0 ≤ d < 16 ∧ n = digit d.
Proof. apply (MakeNumbers_digit_alphabet 16 false). lia. Defined.

(* ===================================================================== *)
(** ** [fromInt]: from integers to words and back                         *)
(* ===================================================================== *)

(** X11.  The outcomes of [fromInt].  With a base from 2 to 36 it returns
    for every integer of 64 bits: the numeral it returns reads back as the
    integer, the letters are the decoding of the numeral, and no other
    integer has the same numeral.  With any other base it panics. *)
Theorem fromInt_outcomes (c : Cipher) (v : Z) :
  (2 ≤ base c ≤ 36 → - 2 ^ 63 ≤ v < 2 ^ 63 →
     ∃ numbers,
       fromInt c v = Ok (numbers, FromNumbers c numbers)
       ∧ ParseInt numbers (base c) = Ok v
       ∧ ∀ v' letters', - 2 ^ 63 ≤ v' < 2 ^ 63 →
           fromInt c v' = Ok (numbers, letters') → v' = v)
  ∧ (¬ (2 ≤ base c ≤ 36) → fromInt c v = Panic IllegalFormatBase).
Proof.
  split; [|apply fromInt_Panic].
  intros Hb Hv. destruct (fromInt_Ok c v Hb) as (numbers & Hfrom & Hparse).
  rewrite int64_small in Hparse by done.
  exists numbers. split; [done|]. split; [done|].
  intros v' letters' Hv' Hfrom'.
  destruct (fromInt_Ok c v' Hb) as (numbers' & Hfrom'' & Hparse').
  rewrite int64_small in Hparse' by done. congruence.
Qed.

Lemma fromInt_outcomes_witness :
  (∃ numbers,
     fromInt cipher_ab 5 = Ok (numbers, FromNumbers cipher_ab numbers)
     ∧ ParseInt numbers (base cipher_ab) = Ok 5
     ∧ ∀ v' letters', - 2 ^ 63 ≤ v' < 2 ^ 63 →
         fromInt cipher_ab v' = Ok (numbers, letters') → v' = 5)
  ∧ fromInt {| letterToNumber := ∅; numberToLetter := ∅; base := 37 |} 5
    = Panic IllegalFormatBase.
Proof.
  split.
  - apply (fromInt_outcomes cipher_ab 5); [vm_compute; split; discriminate|lia].
  - apply (fromInt_outcomes {| letterToNumber := ∅; numberToLetter := ∅; base := 37 |} 5).
    simpl. lia.
Defined.

(** X12.  From an integer to letters and back.  For a cipher built from a
    key of two or more one-byte letters and an integer [v] that is not
    negative, encoding the letters [fromInt] returns gives its numeral
    back, which reads as [v]: a word stands for one integer only. *)
Theorem fromInt_letters_round_trip (k : string) (leading0 : bool) (c : Cipher) (v : Z) :
  CipherFromKey k leading0 = Ok c →
  Forall (λ l, 0 ≤ l < 128) (bytes_of_string k) →
  2 ≤ len k → 0 ≤ v < 2 ^ 63 →
  ∃ numbers letters,
    fromInt c v = Ok (numbers, letters)
    ∧ FromLetters c letters = numbers
    ∧ ParseInt (FromLetters c letters) (base c) = Ok v.
Proof.
  intros Hc Hascii Hk Hv.
  pose proof (CipherFromKey_Ok _ _ _ Hc) as (_ & _ & Hlt & _).
  pose proof (CipherFromKey_entries _ _ _ Hc) as (_ & _ & Hbase & _).
  assert (2 ≤ base c ≤ 36) as Hb by lia.
  destruct (fromInt_Ok c v Hb) as (numbers & Hfrom & Hparse).
  rewrite int64_small in Hparse by lia.
  destruct (FormatInt_digits (base c) v Hb Hv) as (ds & Hfmt & Hds).
  assert (numbers = string_of_bytes (digit <$> ds)) as Hnumbers.
  { unfold fromInt, Itoa in Hfrom. rewrite int64_small in Hfrom by lia.
    destruct (Z.eqb_spec (base c) 10) as [H10|_].
    - rewrite <- H10, Hfmt in Hfrom. simpl in Hfrom. congruence.
    - rewrite Hfmt in Hfrom. simpl in Hfrom. congruence. }
  assert (FromLetters c (FromNumbers c numbers) = numbers) as Hround.
  { apply (decode_encode_numeral k leading0); [done|done|].
    rewrite Hnumbers, bytes_of_string_of_bytes.
    - apply Forall_fmap. eapply Forall_impl; [exact Hds|]. intros d Hd. by exists d.
    - apply Forall_fmap. eapply Forall_impl; [exact Hds|]. intros d Hd. simpl in *.
      destruct (digit_facts d) as (_ & ? & _); lia. }
  exists numbers, (FromNumbers c numbers). by rewrite Hround.
Qed.

Lemma fromInt_letters_round_trip_witness :
  ∃ numbers letters,
    fromInt cipher_ab 6 = Ok (numbers, letters)
    ∧ FromLetters cipher_ab letters = numbers
    ∧ ParseInt (FromLetters cipher_ab letters) (base cipher_ab) = Ok 6.
Proof.
  apply (fromInt_letters_round_trip "ab" false cipher_ab 6).
  - vm_compute. reflexivity.
  - apply (bool_decide_unpack _). vm_compute. reflexivity.
  - vm_compute. discriminate.
  - lia.
Defined.

(* ===================================================================== *)
(** ** [FindValidSums]: outcomes, order and growth                        *)
(* ===================================================================== *)


(** X14.  Short keys.  A cipher [CipherFromKey] builds from a key of fewer
    than two bytes has a base below 2: with it [fromInt] panics on every
    integer, and neither variant of [FindValidSums] returns for any
    positive [maxSum], whatever the word list and the action. *)
Theorem short_key_panics (S : Type) (action : Triplet → S → S) (k : string)
    (leading0 : bool) (c : Cipher) (wl : WordList) (maxSum : Z) (s : S) :
  CipherFromKey k leading0 = Ok c → len k < 2 → 0 < maxSum →
  base c < 2
  ∧ (∀ v, fromInt c v = Panic IllegalFormatBase)
  ∧ (∀ ts, Slice.FindValidSums c maxSum wl ≠ Ok ts)
  ∧ (∀ s', Callback.FindValidSums action c maxSum wl s ≠ Ok s').
Proof.
  intros Hc Hk Hmax.
  destruct (FindValidSums_short_key k leading0 c wl maxSum Hc Hk Hmax) as (H1 & H2).
  apply CipherFromKey_entries in Hc as (_ & _ & Hbase & _).
  split; [lia|]. split; [done|]. split; [done|].
  intros s'. rewrite FindValidSums_agree.
  destruct (Slice.FindValidSums c maxSum wl) as [ts|e|p] eqn:Hts; [|done|done].
  by destruct (H1 ts).
Qed.

Lemma short_key_panics_witness :
  base {| letterToNumber := ∅; numberToLetter := ∅; base := 0 |} < 2
  ∧ (∀ v, fromInt {| letterToNumber := ∅; numberToLetter := ∅; base := 0 |} v
          = Panic IllegalFormatBase)
  ∧ (∀ ts, Slice.FindValidSums
             {| letterToNumber := ∅; numberToLetter := ∅; base := 0 |} 200000 ∅
           ≠ Ok ts)
  ∧ (∀ s', Callback.FindValidSums record_triplet
             {| letterToNumber := ∅; numberToLetter := ∅; base := 0 |} 200000 ∅ []
           ≠ Ok s').
Proof.
  apply (short_key_panics (list Triplet) record_triplet "" false
           {| letterToNumber := ∅; numberToLetter := ∅; base := 0 |} ∅ 200000 []).
  - vm_compute. reflexivity.
  - vm_compute. reflexivity.
  - lia.
Defined.

Lemma StronglySorted_lt_seqZ (m n : Z) : StronglySorted Z.lt (seqZ m n).
Proof.
  destruct (Z.le_gt_cases n 0) as [Hn|Hn]; [rewrite seqZ_nil by done; constructor|].
  destruct (Z_of_nat_complete n) as [j ->]; [lia|]. clear Hn.
  revert m. induction j as [|j IH]; intros m; [constructor|].
  rewrite seqZ_cons by lia. constructor.
  - replace (Z.pred (Z.of_nat (S j))) with (Z.of_nat j) by lia. apply IH.
  - apply Forall_seqZ. lia.
Qed.

Lemma StronglySorted_bind {A B : Type} (R1 : relation A) (R2 : relation B)
    (f : A → list B) (l : list A) :
  StronglySorted R1 l →
  (∀ x, x ∈ l → StronglySorted R2 (f x)) →
  (∀ x y a b, x ∈ l → y ∈ l → R1 x y → a ∈ f x → b ∈ f y → R2 a b) →
  StronglySorted R2 (l ≫= f).
Proof.
  induction 1 as [|x l _ IH Hx]; intros Hf Hcross; [constructor|].
  rewrite bind_cons. apply StronglySorted_app_2.
  - intros a b' Ha (y & Hb & Hy)%list_elem_of_bind.
    apply (Hcross x y); [by left|by right| |done|done].
    by eapply Forall_forall in Hx.
  - apply Hf. by left.
  - apply IH.
    + intros y Hy. apply Hf. by right.
    + intros y z a b' Hy Hz. apply Hcross; by right.
Qed.

Lemma StronglySorted_fmap_elem {A B : Type} (R1 : relation A) (R2 : relation B)
    (f : A → B) (l : list A) :
  StronglySorted R1 l →
  (∀ x y, x ∈ l → y ∈ l → R1 x y → R2 (f x) (f y)) →
  StronglySorted R2 (f <$> l).
Proof.
  induction 1 as [|x l _ IH Hx]; intros Hf; [constructor|].
  rewrite fmap_cons. constructor.
  - apply IH. intros y z Hy Hz. apply Hf; by right.
  - apply Forall_fmap, Forall_forall. intros y Hy. simpl.
    apply Hf; [by left|by right|]. by eapply Forall_forall in Hx.
Qed.

Lemma StronglySorted_NoDup {A : Type} (R : relation A) (l : list A) :
  (∀ x, ¬ R x x) → StronglySorted R l → NoDup l.
Proof.
  intros Hirr. induction 1 as [|x l _ IH Hx]; [constructor|].
  constructor; [|done]. intros Hin. eapply Forall_forall in Hx; [|done]. by eapply Hirr.
Qed.

Lemma fmap_bind_pointwise {A B C : Type} (f : B → C) (g : A → list B) (h : A → list C)
    (l : list A) :
  (∀ x, x ∈ l → f <$> g x = h x) → f <$> (l ≫= g) = l ≫= h.
Proof.
  induction l as [|x l IH]; intros Hfg; [done|].
  rewrite !bind_cons, fmap_app, Hfg by by left. f_equal.
  apply IH. intros y Hy. apply Hfg. by right.
Qed.

(** The pairs of addends behind [valid_sums], in the order of the loops. *)
Lemma valid_sums_pairs (c : Cipher) (wl : WordList) (maxSum : Z) :
  ∃ pairs : list (Z * Z),
    valid_sums c wl maxSum
    = (λ p, (word c p.1, word c p.2, word c (p.1 + p.2))) <$> pairs
    ∧ StronglySorted lex_lt pairs
    ∧ Forall (λ p, 0 ≤ p.1 < maxSum ∧ 0 ≤ p.2 < maxSum) pairs.
Proof.
  set (vs := filter (λ k, valid c wl k = true) (range maxSum)).
  assert (StronglySorted Z.lt vs) as Hvs
    by apply StronglySorted_filter, StronglySorted_lt_seqZ.
  assert (∀ x, x ∈ vs → 0 ≤ x < maxSum) as Hrange.
  { intros x [_ Hx%elem_of_seqZ]%list_elem_of_filter. lia. }
  exists (filter (λ i, i < maxSum ÷ 2) vs
            ≫= λ i, (λ j, (i, j))
                      <$> filter (λ j, i ≤ j ∧ j < maxSum ÷ 2 ∧ valid c wl (i + j) = true) vs).
  split; [|split].
  - unfold valid_sums, sums_of. fold vs. symmetry. apply fmap_bind_pointwise.
    intros i _. by rewrite <- list_fmap_compose.
  - apply (StronglySorted_bind Z.lt).
    + by apply StronglySorted_filter.
    + intros i _. apply (StronglySorted_fmap_elem Z.lt).
      * by apply StronglySorted_filter.
      * intros j j' _ _ Hlt. right. by split.
    + intros i i' p q _ _ Hlt (j & -> & _)%list_elem_of_fmap (j' & -> & _)%list_elem_of_fmap.
      by left.
  - apply Forall_forall. intros p (i & Hp & Hi)%list_elem_of_bind.
    apply list_elem_of_fmap in Hp as (j & -> & Hj).
    apply list_elem_of_filter in Hi as [_ Hi]. apply list_elem_of_filter in Hj as [_ Hj].
    simpl. split; by apply Hrange.
Qed.

(** X15.  The order of the output.  The triplets that either variant of
    [FindValidSums] returns come in strictly ascending order of the first
    addend, then of the second, the addends being read from the numerals
    in the cipher's base; so no triplet is emitted twice. *)
Theorem FindValidSums_sorted (c : Cipher) (wl : WordList) (maxSum : Z)
    (ts : list Triplet) :
  Callback.FindValidSums record_triplet c maxSum wl [] = Ok ts
    ∨ Slice.FindValidSums c maxSum wl = Ok ts →
  StronglySorted (λ t1 t2, lex_lt (addends c t1) (addends c t2)) ts
  ∧ NoDup ts.
Proof.
  intros Hts.
  assert (Slice.FindValidSums c maxSum wl = Ok ts) as Hslice.
  { destruct Hts as [Hts|Hts]; [|done]. by rewrite Callback_record_is_Slice in Hts. }
  destruct (FindValidSums_Ok c wl maxSum ts Hslice) as (Hmax & Hsize & -> & Hb).
  assert (maxSum < 2 ^ 63) as Hint.
  { unfold sizeof_Word, maxAlloc in Hsize. lia. }
  assert (StronglySorted (λ t1 t2, lex_lt (addends c t1) (addends c t2))
            (valid_sums c wl maxSum)) as Hsorted.
  { destruct Hb as [->|Hb]; [constructor|].
    destruct (valid_sums_pairs c wl maxSum) as (pairs & -> & Hpairs & Hrange).
    apply (StronglySorted_fmap_elem lex_lt); [done|].
    assert (∀ p, p ∈ pairs →
              addends c (word c p.1, word c p.2, word c (p.1 + p.2)) = p) as Hadd.
    { intros [i j] Hp. eapply Forall_forall in Hrange as [Hi Hj]; [|done]. simpl in *.
      unfold addends, Word_value. simpl.
      destruct (word_value c i Hb) as [-> _]; [lia|].
      by destruct (word_value c j Hb) as [-> _]; [lia|]. }
    intros p q Hp Hq Hlt. by rewrite !Hadd. }
  split; [done|]. eapply StronglySorted_NoDup; [|done].
  intros t [?|[_ ?]]; lia.
Qed.

Lemma FindValidSums_sorted_witness :
  StronglySorted (λ t1 t2, lex_lt (addends cipher_ab t1) (addends cipher_ab t2))
    [({| numbers := "1"; letters := "a" |}, {| numbers := "1"; letters := "a" |},
      {| numbers := "10"; letters := "ab" |});
     ({| numbers := "10"; letters := "ab" |}, {| numbers := "10"; letters := "ab" |},
      {| numbers := "100"; letters := "abb" |})]
  ∧ NoDup
      [({| numbers := "1"; letters := "a" |}, {| numbers := "1"; letters := "a" |},
        {| numbers := "10"; letters := "ab" |});
       ({| numbers := "10"; letters := "ab" |}, {| numbers := "10"; letters := "ab" |},
        {| numbers := "100"; letters := "abb" |})].
Proof.
  apply (FindValidSums_sorted cipher_ab {["a"; "ab"; "abb"]} 8).
  right. vm_compute. reflexivity.
Defined.

Lemma valid_mono (c : Cipher) (wl wl' : WordList) (v : Z) :
  wl ⊆ wl' → valid c wl v = true → valid c wl' v = true.
Proof.
  unfold valid, IsValidWord. intros Hsub Hv%bool_decide_eq_true.
  apply bool_decide_eq_true. by apply Hsub.
Qed.

(** X16.  The output only grows.  When the bound is raised and words are
    added to the list, every triplet that was emitted is emitted again. *)
Theorem FindValidSums_monotone (c : Cipher) (wl wl' : WordList) (maxSum maxSum' : Z)
    (ts ts' : list Triplet) (t : Triplet) :
  maxSum ≤ maxSum' → wl ⊆ wl' →
  Slice.FindValidSums c maxSum wl = Ok ts →
  Slice.FindValidSums c maxSum' wl' = Ok ts' →
  t ∈ ts → t ∈ ts'.
Proof.
  intros Hle Hsub Hts Hts' Hin.
  apply FindValidSums_Ok in Hts as (Hmax & _ & -> & _).
  apply FindValidSums_Ok in Hts' as (Hmax' & _ & -> & _).
  apply elem_of_valid_sums in Hin as (i & j & Hi & Hij & Hj & Hsum & Hvi & Hvj & Hv & ->);
    [|lia].
  apply elem_of_valid_sums; [lia|]. exists i, j.
  assert (maxSum ÷ 2 ≤ maxSum' ÷ 2) by (apply Z.quot_le_mono; lia).
  repeat split; try lia; by eapply valid_mono.
Qed.

Lemma FindValidSums_monotone_witness :
  ({| numbers := "1"; letters := "a" |}, {| numbers := "1"; letters := "a" |},
   {| numbers := "10"; letters := "ab" |})
  ∈ [({| numbers := "1"; letters := "a" |}, {| numbers := "1"; letters := "a" |},
      {| numbers := "10"; letters := "ab" |});
     ({| numbers := "10"; letters := "ab" |}, {| numbers := "10"; letters := "ab" |},
      {| numbers := "100"; letters := "abb" |})].
Proof.
  apply (FindValidSums_monotone cipher_ab {["a"; "ab"]} {["a"; "ab"; "abb"]} 4 8
           [({| numbers := "1"; letters := "a" |}, {| numbers := "1"; letters := "a" |},
             {| numbers := "10"; letters := "ab" |})]).
  - lia.
  - apply (bool_decide_unpack _). vm_compute. reflexivity.
  - vm_compute. reflexivity.
  - vm_compute. reflexivity.
  - left.
Defined.

(* ===================================================================== *)
(** ** [MakeWordList]                                                     *)
(* ===================================================================== *)

Lemma bytes_of_string_range (s : string) : Forall (λ c, 0 ≤ c < 256) (bytes_of_string s).
Proof.
  unfold bytes_of_string. apply Forall_fmap, Forall_forall. intros a _. simpl.
  unfold chr. pose proof (N_ascii_bounded a). lia.
Qed.

Lemma bytes_of_string_app (s1 s2 : string) :
  bytes_of_string (s1 +:+ s2) = bytes_of_string s1 ++ bytes_of_string s2.
Proof.
  unfold bytes_of_string. rewrite <- fmap_app. f_equal.
  induction s1 as [|a s1 IH]; simpl; [done|]. by rewrite IH.
Qed.

Lemma string_of_bytes_inj (bs1 bs2 : list Z) :
  Forall (λ c, 0 ≤ c < 256) bs1 → Forall (λ c, 0 ≤ c < 256) bs2 →
  string_of_bytes bs1 = string_of_bytes bs2 → bs1 = bs2.
Proof.
  intros H1 H2 Heq. by rewrite <- (bytes_of_string_of_bytes bs1), Heq,
    bytes_of_string_of_bytes.
Qed.

Lemma split_on_app (sep : Z) (cur s1 s2 : list Z) :
  split_on sep cur (s1 ++ sep :: s2)
  = split_on sep cur s1 ++ split_on sep [] s2.
Proof.
  revert cur. induction s1 as [|c s1 IH]; intros cur; simpl.
  - by rewrite Z.eqb_refl.
  - destruct (c =? sep); [|apply IH]. by rewrite IH.
Qed.

Lemma split_on_Forall (P : Z → Prop) (sep : Z) (cur s : list Z) :
  Forall P cur → Forall P s → Forall (Forall P) (split_on sep cur s).
Proof.
  intros Hcur Hs. revert cur Hcur.
  induction Hs as [|c s Hc _ IH]; intros cur Hcur; simpl.
  - by constructor.
  - destruct (c =? sep).
    + constructor; [done|]. by apply IH.
    + apply IH. apply Forall_app. split; [done|]. by constructor.
Qed.

Lemma TrimSpace_start_ascii (s : list Z) :
  Forall (λ c, 0 ≤ c < 128) s →
  ∃ spaces rest,
    TrimSpace_start s = inr rest
    ∧ s = spaces ++ rest
    ∧ ∀ c, head rest = Some c → asciiSpace c = false.
Proof.
  induction 1 as [|c s Hc _ (spaces & rest & IH & Heq & Hhead)]; simpl.
  - by exists [], [].
  - unfold RuneSelf. guard_leb 128 c. destruct (asciiSpace c) eqn:Hsp.
    + exists (c :: spaces), rest. rewrite IH. split; [done|]. split; [|done].
      simpl. by rewrite Heq.
    + exists [], (c :: s). split; [done|]. split; [done|]. by intros ? [= <-].
Qed.

Lemma TrimSpace_stop_ascii (rev_s : list Z) :
  Forall (λ c, 0 ≤ c < 128) rev_s →
  ∃ spaces kept,
    TrimSpace_stop rev_s = inr kept
    ∧ reverse rev_s = kept ++ spaces
    ∧ ∀ c, last kept = Some c → asciiSpace c = false.
Proof.
  induction 1 as [|c r Hc _ (spaces & kept & IH & Heq & Hlast)]; simpl.
  - by exists [], [].
  - unfold RuneSelf. guard_leb 128 c. destruct (asciiSpace c) eqn:Hsp.
    + exists (spaces ++ [c]), kept. rewrite IH. split; [done|]. split; [|done].
      by rewrite reverse_cons, Heq, app_assoc.
    + exists [], (reverse (c :: r)). split; [done|]. split; [by rewrite app_nil_r|].
      intros c'. rewrite reverse_cons, last_snoc. by intros [= <-].
Qed.

Section WordListFacts.
Context (ReadFile : string → string + error).
Context (Map_ToLower TrimFunc_IsSpace TrimRightFunc_IsSpace : string → string).

Local Abbreviation normal_form :=
  (normal_form Map_ToLower TrimFunc_IsSpace TrimRightFunc_IsSpace).

Lemma elem_of_word_list_loop (lines : list (list Z)) (wl : WordList) (w : string) :
  w ∈ foldl (λ (wordList : WordList) word,
               let word := normal_form word in
               if bool_decide (word ≠ ""%string) then {[word]} ∪ wordList else wordList)
            wl lines
  ↔ w ∈ wl ∨ (w ≠ ""%string ∧ ∃ line, line ∈ lines ∧ w = normal_form line).
Proof.
  revert wl. induction lines as [|line lines IH]; intros wl; simpl.
  - split; [by left|]. intros [?|(_ & line & Hin & _)]; [done|]. by apply not_elem_of_nil in Hin.
  - rewrite IH. case_bool_decide as Hne; split.
    + intros [[->%elem_of_singleton|?]%elem_of_union|(? & l & ? & ?)].
      * right. split; [done|]. exists line. split; [by left|done].
      * by left.
      * right. split; [done|]. exists l. split; [by right|done].
    + intros [?|(? & l & [->|?]%elem_of_cons & ->)].
      * left. apply elem_of_union. by right.
      * left. apply elem_of_union. left. by apply elem_of_singleton.
      * right. split; [done|]. by exists l.
    + intros [?|(? & l & ? & ?)]; [by left|].
      right. split; [done|]. exists l. split; [by right|done].
    + intros [?|(? & l & [->|?]%elem_of_cons & ->)]; [by left|done|].
      right. split; [done|]. by exists l.
Qed.

Lemma elem_of_word_list_of (data : string) (w : string) :
  w ∈ word_list_of Map_ToLower TrimFunc_IsSpace TrimRightFunc_IsSpace data
  ↔ w ≠ ""%string ∧ ∃ line, line ∈ lines_of data ∧ w = normal_form line.
Proof.
  unfold word_list_of. rewrite (elem_of_word_list_loop _ ∅ w).
  split; [intros [Hin|?]; [by apply not_elem_of_empty in Hin|done]|by right].
Qed.

(** The normal form of a line of ASCII bytes: ASCII bytes again, none of
    them a capital letter, with no space at either end. *)
Lemma normal_form_ascii (line : list Z) :
  Forall (λ c, 0 ≤ c < 128) line →
  Forall (λ c, 0 ≤ c < 128 ∧ ¬ (chr "A" ≤ c ≤ chr "Z")) (bytes_of_string (normal_form line))
  ∧ (∀ c, head (bytes_of_string (normal_form line)) = Some c → asciiSpace c = false)
  ∧ (∀ c, last (bytes_of_string (normal_form line)) = Some c → asciiSpace c = false).
Proof.
  intros Hline. unfold normal_form, ToLower.
  assert (Forall (λ c, 0 ≤ c < 256) line) as Hbytes.
  { eapply Forall_impl; [exact Hline|]. simpl. lia. }
  rewrite bytes_of_string_of_bytes by done.
  assert (forallb (λ c, c <? RuneSelf) line = true) as ->.
  { apply forallb_forall. intros c Hc%list_elem_of_In.
    eapply Forall_forall in Hline; [|done]. unfold RuneSelf. simpl in *. lia. }
  set (lowered := (λ c, if (chr "A" <=? c) && (c <=? chr "Z")
                        then c + (chr "a" - chr "A") else c) <$> line).
  assert (Forall (λ c, 0 ≤ c < 128 ∧ ¬ (chr "A" ≤ c ≤ chr "Z")) lowered) as Hlow.
  { apply Forall_fmap. eapply Forall_impl; [exact Hline|]. intros c Hc. simpl in *.
    change (chr "A") with 65. change (chr "Z") with 90. change (chr "a") with 97.
    destruct (Z.leb_spec 65 c), (Z.leb_spec c 90); simpl; lia. }
  assert (Forall (λ c, 0 ≤ c < 128) lowered) as Hlow'.
  { eapply Forall_impl; [exact Hlow|]. by intros c [? _]. }
  unfold TrimSpace. rewrite bytes_of_string_of_bytes
    by (eapply Forall_impl; [exact Hlow'|]; simpl; lia).
  destruct (TrimSpace_start_ascii lowered Hlow') as (sp1 & rest & -> & Heq1 & Hhead).
  assert (Forall (λ c, 0 ≤ c < 128 ∧ ¬ (chr "A" ≤ c ≤ chr "Z")) rest) as Hrest.
  { rewrite Heq1 in Hlow. by apply Forall_app in Hlow as [_ ?]. }
  destruct (TrimSpace_stop_ascii (reverse rest)) as (sp2 & kept & -> & Heq2 & Hlast).
  { apply Forall_reverse. eapply Forall_impl; [exact Hrest|]. by intros c [? _]. }
  rewrite reverse_involutive in Heq2.
  assert (Forall (λ c, 0 ≤ c < 128 ∧ ¬ (chr "A" ≤ c ≤ chr "Z")) kept) as Hkept.
  { rewrite Heq2 in Hrest. by apply Forall_app in Hrest as [? _]. }
  rewrite bytes_of_string_of_bytes
    by (eapply Forall_impl; [exact Hkept|]; simpl; lia).
  split; [done|]. split; [|done].
  intros c Hc. apply Hhead. rewrite Heq2. by destruct kept.
Qed.

(** X17.  What [MakeWordList] returns.  When the file cannot be read it
    returns the error with an empty list.  Otherwise it returns no error
    and the list holds a word exactly when the word is not empty and is the
    normal form (lowered, then trimmed) of a line of the file: the empty
    word is never in the list. *)
Theorem MakeWordList_members (fileName : string) :
  (∀ err, ReadFile fileName = inr err →
     MakeWordList ReadFile Map_ToLower TrimFunc_IsSpace TrimRightFunc_IsSpace fileName
     = (∅, Some err))
  ∧ (∀ data, ReadFile fileName = inl data →
     ∃ wl, MakeWordList ReadFile Map_ToLower TrimFunc_IsSpace TrimRightFunc_IsSpace fileName
           = (wl, None)
           ∧ IsValidWord "" wl = false
           ∧ ∀ w, IsValidWord w wl = true
                  ↔ w ≠ ""%string ∧ ∃ line, line ∈ lines_of data ∧ w = normal_form line).
Proof.
  unfold MakeWordList. split.
  - by intros err ->.
  - intros data ->. eexists. split; [done|]. unfold IsValidWord. split.
    + apply bool_decide_eq_false. rewrite elem_of_word_list_of. by intros [? _].
    + intros w. by rewrite bool_decide_eq_true, elem_of_word_list_of.
Qed.

(** X18.  A word list read from an ASCII file is in normal form.  Every
    word [IsValidWord] accepts in it is made of ASCII bytes, has no capital
    letter and neither starts nor ends with a space: the lookup is exact,
    so a query with a capital letter or a space around it is refused. *)
Theorem MakeWordList_ascii_normal (fileName data : string) (w : string) :
  ReadFile fileName = inl data →
  Forall (λ c, 0 ≤ c < 128) (bytes_of_string data) →
  IsValidWord w
    (MakeWordList ReadFile Map_ToLower TrimFunc_IsSpace TrimRightFunc_IsSpace fileName).1
  = true →
  w ≠ ""%string
  ∧ Forall (λ c, 0 ≤ c < 128 ∧ ¬ (chr "A" ≤ c ≤ chr "Z")) (bytes_of_string w)
  ∧ (∀ c, head (bytes_of_string w) = Some c → asciiSpace c = false)
  ∧ (∀ c, last (bytes_of_string w) = Some c → asciiSpace c = false).
Proof.
  intros Hread Hascii. unfold MakeWordList, IsValidWord. rewrite Hread. simpl.
  rewrite bool_decide_eq_true, elem_of_word_list_of.
  intros (Hne & line & Hline & ->). split; [done|].
  apply normal_form_ascii.
  pose proof (split_on_Forall (λ c, 0 ≤ c < 128) (chr "010") [] _
                (Forall_nil_2 _) Hascii) as Hlines.
  by eapply Forall_forall in Hlines.
Qed.

(** X19.  Word lists add up.  The word list of two files joined by a line
    feed is the union of their word lists. *)
Theorem word_list_of_join (data1 data2 : string) :
  word_list_of Map_ToLower TrimFunc_IsSpace TrimRightFunc_IsSpace
    (data1 +:+ String "010" data2)
  = word_list_of Map_ToLower TrimFunc_IsSpace TrimRightFunc_IsSpace data1
    ∪ word_list_of Map_ToLower TrimFunc_IsSpace TrimRightFunc_IsSpace data2.
Proof.
  apply set_eq. intros w. rewrite elem_of_union, !elem_of_word_list_of.
  unfold lines_of. rewrite bytes_of_string_app.
  change (bytes_of_string (String "010" data2)) with (chr "010" :: bytes_of_string data2).
  rewrite split_on_app. split.
  - intros (Hne & line & [Hin|Hin]%elem_of_app & ->); [left|right]; (split; [done|]);
      by exists line.
  - intros [(Hne & line & Hin & ->)|(Hne & line & Hin & ->)]; (split; [done|]);
      exists line; (split; [|done]); apply elem_of_app; [by left|by right].
Qed.
End WordListFacts.

Lemma MakeWordList_members_witness :
  MakeWordList (λ _, inr (errorString "no such file")) id id id "words.txt"
  = (∅, Some (errorString "no such file"))
  ∧ ∃ wl, MakeWordList (λ _, inl (" Ab " +:+ String "010" "CD")) id id id "words.txt"
          = (wl, None)
          ∧ IsValidWord "" wl = false
          ∧ ∀ w, IsValidWord w wl = true
                 ↔ w ≠ ""%string
                   ∧ ∃ line, line ∈ lines_of (" Ab " +:+ String "010" "CD")
                             ∧ w = normal_form id id id line.
Proof.
  split.
  - apply (MakeWordList_members (λ _, inr (errorString "no such file")) id id id
             "words.txt").
    reflexivity.
  - apply (MakeWordList_members (λ _, inl (" Ab " +:+ String "010" "CD")) id id id
             "words.txt").
    reflexivity.
Defined.

Lemma MakeWordList_ascii_normal_witness :
  "ab"%string ≠ ""%string
  ∧ Forall (λ c, 0 ≤ c < 128 ∧ ¬ (chr "A" ≤ c ≤ chr "Z")) (bytes_of_string "ab")
  ∧ (∀ c, head (bytes_of_string "ab") = Some c → asciiSpace c = false)
  ∧ (∀ c, last (bytes_of_string "ab") = Some c → asciiSpace c = false).
Proof.
  apply (MakeWordList_ascii_normal (λ _, inl (" Ab " +:+ String "010" "CD")) id id id
           "words.txt" (" Ab " +:+ String "010" "CD") "ab").
  - reflexivity.
  - apply (bool_decide_unpack _). vm_compute. reflexivity.
  - vm_compute. reflexivity.
Defined.

(* ===================================================================== *)
(** ** [FromLetters] and [FromNumbers]: symbol by symbol                  *)
(* ===================================================================== *)

Lemma string_of_bytes_app (bs1 bs2 : list Z) :
  string_of_bytes (bs1 ++ bs2) = string_of_bytes bs1 +:+ string_of_bytes bs2.
Proof.
  unfold string_of_bytes. rewrite fmap_app.
  induction ((λ b, ascii_of_N (Z.to_N b)) <$> bs1) as [|a l IH]; simpl; [done|].
  by rewrite IH.
Qed.

Lemma string_of_runes_app (rs1 rs2 : list Z) :
  string_of_runes (rs1 ++ rs2) = string_of_runes rs1 +:+ string_of_runes rs2.
Proof. unfold string_of_runes. by rewrite bind_app, string_of_bytes_app. Qed.

Lemma range_string_app_ascii (s1 s2 : string) :
  Forall (λ c, 0 ≤ c < 128) (bytes_of_string s1) →
  range_string (s1 +:+ s2) = range_string s1 ++ range_string s2.
Proof.
  intros Hs1. unfold range_string. rewrite bytes_of_string_app.
  rewrite (range_bytes_ascii (bytes_of_string s1)) by done.
  induction Hs1 as [|c p Hc _ IH]; [done|].
  rewrite <- app_comm_cons. cbn [range_bytes DecodeRune].
  guard_ltb c 128. simpl. by rewrite IH.
Qed.

(** X20.  The translation goes symbol by symbol.  For every cipher,
    [FromLetters] and [FromNumbers] translate a string that starts with
    one-byte symbols piece by piece: the translation of [s1] followed by
    [s2] is the translation of [s1] followed by that of [s2], and the
    translation of [s1] has as many symbols as [s1] has bytes. *)
Theorem translation_symbol_by_symbol (c : Cipher) (s1 s2 : string) :
  Forall (λ x, 0 ≤ x < 128) (bytes_of_string s1) →
  FromLetters c (s1 +:+ s2) = FromLetters c s1 +:+ FromLetters c s2
  ∧ FromNumbers c (s1 +:+ s2) = FromNumbers c s1 +:+ FromNumbers c s2
  ∧ Z.of_nat (length (FromLetters_runes c s1)) = len s1
  ∧ Z.of_nat (length (FromNumbers_runes c s1)) = len s1.
Proof.
  intros Hs1. unfold FromLetters, FromNumbers, FromLetters_runes, FromNumbers_runes.
  rewrite !foldl_snoc_fmap, !app_nil_l, range_string_app_ascii by done.
  rewrite !fmap_app, !string_of_runes_app, !length_fmap.
  unfold range_string. rewrite range_bytes_ascii by done.
  by rewrite length_bytes_of_string.
Qed.

Lemma translation_symbol_by_symbol_witness :
  FromLetters cipher_ab ("ab" +:+ "ba") = FromLetters cipher_ab "ab" +:+ FromLetters cipher_ab "ba"
  ∧ FromNumbers cipher_ab ("ab" +:+ "ba")
    = FromNumbers cipher_ab "ab" +:+ FromNumbers cipher_ab "ba"
  ∧ Z.of_nat (length (FromLetters_runes cipher_ab "ab")) = len "ab"
  ∧ Z.of_nat (length (FromNumbers_runes cipher_ab "ab")) = len "ab".
Proof.
  apply (translation_symbol_by_symbol cipher_ab "ab" "ba").
  apply (bool_decide_unpack _). vm_compute. reflexivity.
Defined.
